(** * firego: a REST client for Firebase — shallow embedding of [firebase.go]

    Go strings are byte sequences; they are modelled by [string] (a list of
    8-bit [ascii] characters).  [url.Values] and [http.Header] are Go maps
    from strings to slices of strings and are modelled by
    [gmap string (list string)].  Go maps and [*Firebase] values are
    references: they live in an explicit store, so that aliasing between a
    parent Reference and the References derived from it is visible. *)

From Stdlib Require Import ZArith Ascii.
From stdpp Require Import gmap strings list fin_maps sorting pretty.


(** ** Package [strings] *)

Module strings.

(** [len(s) >= len(prefix) && s[:len(prefix)] == prefix] *)
Definition HasPrefix (s prefix : string) : bool :=
  (String.length prefix <=? String.length s)%nat
  && String.eqb (String.substring 0 (String.length prefix) s) prefix.

(** [len(s) >= len(suffix) && s[len(s)-len(suffix):] == suffix] *)
Definition HasSuffix (s suffix : string) : bool :=
  (String.length suffix <=? String.length s)%nat
  && String.eqb
       (String.substring (String.length s - String.length suffix)
                         (String.length suffix) s)
       suffix.

End strings.

(** ** URL normalisation *)

(** [func sanitizeURL(url string) string] *)
Definition sanitizeURL (url : string) : string :=
  let url :=
    if negb (strings.HasPrefix url "https://")
       && negb (strings.HasPrefix url "http://")
    then "https://" +:+ url else url in
  let url :=
    if strings.HasSuffix url "/"
    then String.substring 0 (String.length url - 1) url else url in
  url.

(** The first statement of [sanitizeURL] alone: the scheme default. *)
Definition withScheme (url : string) : string :=
  if negb (strings.HasPrefix url "https://")
     && negb (strings.HasPrefix url "http://")
  then "https://" +:+ url else url.

(** The property of a path the specification asks for. *)
Definition hasScheme (s : string) : bool :=
  strings.HasPrefix s "http://" || strings.HasPrefix s "https://".

Definition normalized (s : string) : Prop :=
  hasScheme s = true ∧ strings.HasSuffix s "/" = false.

(** What the specification asks of [sanitizeURL] at one input. *)
Definition sanitize_spec (u : string) : Prop :=
  sanitizeURL (sanitizeURL u) = sanitizeURL u
  ∧ hasScheme (sanitizeURL u) = true
  ∧ strings.HasSuffix (sanitizeURL u) "/" = false.

(** ** Package [net/url]: query escaping and [url.Values]

    [net/url] is Go's standard library, used by [String] through
    [Values.Encode], [ParseQuery] and [Values.Add], and by [Auth] and
    [Unauth] through [Values.Set] and [Values.Del].  The definitions below
    follow the library's code for the [encodeQueryComponent] mode. *)

Module _url.

(** [type Values map[string][]string] *)
Abbreviation Values := (gmap string (list string)).

(** [v[key] = []string{value}] *)
Definition Values_Set (v : Values) (key value : string) : Values :=
  <[key := [value]]> v.

(** [v[key] = append(v[key], value)] *)
Definition Values_Add (v : Values) (key value : string) : Values :=
  <[key := default [] (v !! key) ++ [value]]> v.

(** [delete(v, key)] *)
Definition Values_Del (v : Values) (key : string) : Values :=
  delete key v.

Definition byte_in (lo hi c : ascii) : bool :=
  (N_of_ascii lo <=? N_of_ascii c)%N && (N_of_ascii c <=? N_of_ascii hi)%N.

(** [shouldEscape(c, encodeQueryComponent)]: only the unreserved
    characters of RFC 3986 §2.3 are left alone. *)
Definition shouldEscape (c : ascii) : bool :=
  if byte_in "a" "z" c || byte_in "A" "Z" c || byte_in "0" "9" c then false
  else if bool_decide (c = "-"%char) || bool_decide (c = "_"%char)
          || bool_decide (c = "."%char) || bool_decide (c = "~"%char)
  then false
  else true.

(** [const upperhex = "0123456789ABCDEF"], indexed by a nibble. *)
Definition upperhex (n : N) : ascii :=
  default "0"%char (String.get (N.to_nat n) "0123456789ABCDEF").

(** [escape(s, encodeQueryComponent)], byte by byte: a space becomes
    [+], a byte that must be escaped becomes [%XX]. *)
Fixpoint QueryEscape (s : string) : string :=
  match s with
  | EmptyString => EmptyString
  | String c s =>
      if bool_decide (c = " "%char) then String "+" (QueryEscape s)
      else if shouldEscape c then
        String "%"
          (String (upperhex (N.shiftr (N_of_ascii c) 4))
             (String (upperhex (N.land (N_of_ascii c) 15))
                (QueryEscape s)))
      else String c (QueryEscape s)
  end.

Definition ishex (c : ascii) : bool :=
  byte_in "0" "9" c || byte_in "a" "f" c || byte_in "A" "F" c.

Definition unhex (c : ascii) : N :=
  if byte_in "0" "9" c then N_of_ascii c - N_of_ascii "0"
  else if byte_in "a" "f" c then N_of_ascii c - N_of_ascii "a" + 10
  else if byte_in "A" "F" c then N_of_ascii c - N_of_ascii "A" + 10
  else 0.

(** [unescape(s, encodeQueryComponent)]; [None] is the [EscapeError]
    returned for a [%] that is not followed by two hex digits. *)
Fixpoint QueryUnescape (s : string) : option string :=
  match s with
  | EmptyString => Some EmptyString
  | String c r =>
      if bool_decide (c = "%"%char) then
        match r with
        | String a (String b r') =>
            if ishex a && ishex b then
              String (ascii_of_N (N.lor (N.shiftl (unhex a) 4) (unhex b)))
                <$> QueryUnescape r'
            else None
        | _ => None
        end
      else if bool_decide (c = "+"%char) then String " " <$> QueryUnescape r
      else String c <$> QueryUnescape r
  end.

(** [for k := range v { keys = append(keys, k) }; sort.Strings(keys)] *)
Definition sortedKeys (v : Values) : list string :=
  merge_sort String.le (map_to_list v).*1.

(** [func (v Values) Encode() string].  A nil map is read as the empty
    map, for which the loop does not run either. *)
Definition Values_Encode (v : Values) : string :=
  foldl
    (λ buf k,
       let vs := default [] (v !! k) in
       let keyEscaped := QueryEscape k in
       foldl
         (λ buf x,
            (if bool_decide (0 < String.length buf) then buf +:+ "&"
             else buf)
            +:+ keyEscaped +:+ "=" +:+ QueryEscape x)
         buf vs)
    EmptyString (sortedKeys v).

(** [strings.Cut(s, sep)] for a one-byte separator. *)
Fixpoint Cut (s : string) (sep : ascii) : string * string * bool :=
  match s with
  | EmptyString => (EmptyString, EmptyString, false)
  | String c r =>
      if bool_decide (c = sep) then (EmptyString, r, true)
      else let '(before, after, found) := Cut r sep in
           (String c before, after, found)
  end.

(** [strings.Contains(s, string(c))] *)
Fixpoint Contains (s : string) (c : ascii) : bool :=
  match s with
  | EmptyString => false
  | String d r => bool_decide (d = c) || Contains r c
  end.

(** The body of the loop of [parseQuery]; the boolean records
    [err != nil]. *)
Definition parseQuery_step (acc : Values * bool) (key : string)
  : Values * bool :=
  let '(m, err) := acc in
  if Contains key ";" then (m, true)
  else if bool_decide (key = EmptyString) then (m, err)
  else
    let '(key, value, _) := Cut key "=" in
    match QueryUnescape key with
    | None => (m, true)
    | Some key =>
        match QueryUnescape value with
        | None => (m, true)
        | Some value => (Values_Add m key value, err)
        end
    end.

(** The loop [for query != "" { key, query, _ = strings.Cut(query, "&");
    ... }] of [parseQuery].  Every iteration removes at least one byte
    of [query], so [length query] iterations are enough.  (Before Go 1.17
    the loop cut at semicolons as well; [Encode] writes none.) *)
Fixpoint parseQuery_loop (fuel : nat) (query : string) (acc : Values * bool)
  : Values * bool :=
  match fuel with
  | O => acc
  | S fuel =>
      if bool_decide (query = EmptyString) then acc
      else let '(key, query, _) := Cut query "&" in
           parseQuery_loop fuel query (parseQuery_step acc key)
  end.

(** [func ParseQuery(query string) (Values, error)]: the map is returned
    also when [err != nil]. *)
Definition ParseQuery (query : string) : Values * bool :=
  parseQuery_loop (String.length query) query (∅, false).

End _url.

(** ** Errors

    A Go [error] is an interface value.  The values that reach the callers
    of this package are told apart by where they were made. *)

(** What [http.Client.Do] can return as its error, by the dynamic types
    that the type switch of [doRequest] tells apart.  An error value either
    implements [net.Error] ([Timeout] and [Temporary]) or has no [Timeout]
    method at all, as is the case of the errors of [net] and [net/http]. *)
Inductive transport_error : Type :=
  | net_Error (msg : string) (timeout temporary : bool)
      (** a value of a type implementing [net.Error], other than
          [*url.Error] *)
  | url_Error (Op URL : string) (Err : transport_error)
      (** [&url.Error{Op, URL, Err}] *)
  | other_error (msg : string).
      (** a value of any other type *)

(** [e.(net.Error)] followed by [Timeout()]: [None] when the dynamic type
    of [e] does not implement [net.Error].  [*url.Error] implements it, and
    its [Timeout] asks the wrapped error. *)
Fixpoint net_Timeout (e : transport_error) : option bool :=
  match e with
  | net_Error _ timeout _ => Some timeout
  | url_Error _ _ Err => Some (default false (net_Timeout Err))
  | other_error _ => None
  end.

Inductive error : Type :=
  | ErrRequest (msg : string)
      (** returned by [http.NewRequest] *)
  | ErrTransport (e : transport_error)
      (** the error of [http.Client.Do], as it was returned *)
  | ErrTimeout (e : transport_error)
      (** [ErrTimeout{err}] *)
  | ErrRead (msg : string)
      (** returned by [ioutil.ReadAll] *)
  | ErrApplication (msg : string)
      (** [errors.New(string(respBody))] *)
  | ErrValueMissing
      (** [var ErrValueMissing = errors.New("firebase node missing")] *)
  | ErrJSON (msg : string).
      (** returned by [json.Marshal] or [json.Unmarshal] *)

(** The result of a Go function returning [(T, error)]. *)
Inductive result (A : Type) : Type :=
  | Ok (a : A)
  | Err (e : error).
Arguments Ok {A} a.
Arguments Err {A} e.

(** ** Requests and responses *)

Definition loc := positive.

(** [context.Context] values are only passed on. *)
Definition Context := nat.

(** [oauth2.TokenSource] values are only asked for a token. *)
Definition TokenSource := nat.

Record Request : Type := mkRequest {
  Method : string;
  URL : string;
  Header : gmap string (list string);
  Body : string;
  Ctx : option Context;
}.

(** [req.WithContext(ctx)] *)
Definition WithContext (req : Request) (ctx : Context) : Request :=
  mkRequest (Method req) (URL req) (Header req) (Body req) (Some ctx).

Record Response : Type := mkResponse {
  StatusCode : Z;
  (** what [ioutil.ReadAll(resp.Body)] gives: all the bytes, or an error *)
  ReadAll : string + string;
}.

(** ** External collaborators

    The HTTP transport, the JSON codec and the OAuth2 token source are not
    part of the package.  The answers of the transport and of the token
    source may change from one call to the next: they are asked with the
    number of calls made so far. *)
Class External : Type := {
  (** the caller's values, [interface{}] in the source *)
  value : Type;
  json_Marshal : value → string + string;
  json_Unmarshal : string → value + string;
  (** [json.Unmarshal(bytes, &m)] for [var m map[string]string] *)
  json_Unmarshal_map : string → gmap string string + string;
  (** the error of [http.NewRequest(method, url, body)], if any *)
  http_NewRequest_error : string → string → option string;
  (** [client.Do(req)] *)
  client_Do : nat → loc → Request → Response + transport_error;
  (** [tokenSrc.Token()]: the [AccessToken] of the token unless the token
      is nil, and the error unless it is nil *)
  tokenSource_Token : nat → TokenSource → option string * option string;
}.

(** [http.NewRequest(method, url, bytes.NewReader(body))] *)
Definition http_NewRequest {world : External} (method url body : string)
  : Request + string :=
  match http_NewRequest_error method url with
  | Some msg => inr msg
  | None => inl (mkRequest method url ∅ body None)
  end.

(** ** Redirects *)

(** [var defaultRedirectLimit = 30] *)
Definition defaultRedirectLimit : Z := 30.

(** [func redirectPreserveHeaders(req *http.Request, via []*http.Request)
    error].  The header map of [req] is updated in place; the function
    returns the request as it is left, and the error. *)
Definition redirectPreserveHeaders (req : Request) (via : list Request)
  : Request * option string :=
  match via with
  | [] => (req, None)
  | first :: _ =>
      if (defaultRedirectLimit <? Z.of_nat (length via))%Z then
        (req, Some (pretty (length via) +:+ " consecutive requests(redirects)"))
      else
        (mkRequest (Method req) (URL req)
           (map_fold (λ key val h, <[key := val]> h) (Header req)
              (Header first))
           (Body req) (Ctx req),
         None)
  end.

(** ** The store

    [*Firebase], [url.Values], [*http.Client] and channels are references.
    The slices held by a [url.Values] are never written through by this
    package ([Set] stores a new slice, [Del] removes the entry, and [Add]
    is only applied to the map that [String] has just parsed), so a map
    holds them as immutable lists. *)

(** [type Firebase struct].  [params] and [stopWatching] are [None] when
    the field is nil.  The zero value of [watchMtx] carries no data. *)
Record Firebase : Type := mkFirebase {
  url : string;
  params : option loc;
  client : loc;
  tokenSrc : option TokenSource;
  watching : bool;
  stopWatching : option loc;
}.

(** What [New] puts in an [http.Client] it makes itself. *)
Record Client : Type := mkClient {
  DisableKeepAlives : bool;
  (** [CheckRedirect: redirectPreserveHeaders] *)
  CheckRedirect_preserves : bool;
}.

Inductive Event : Type :=
  | EvToken (ts : TokenSource)
      (** [ts.Token()] *)
  | EvDo (client : loc) (req : Request)
      (** [client.Do(req)] *)
  | EvUnmarshal (bytes : string).
      (** [json.Unmarshal(bytes, v)] *)

Record Store : Type := mkStore {
  refs : gmap loc Firebase;
  maps : gmap loc (gmap string (list string));
  chans : gset loc;
  clients : gmap loc Client;
  (** the calls made to the external collaborators, oldest first *)
  trace : list Event;
}.

Definition empty_store : Store := mkStore ∅ ∅ ∅ ∅ [].

(** A computation either returns a value and a store, or panics. *)
Inductive outcome (A : Type) : Type :=
  | Done (a : A) (σ : Store)
  | Panic (msg : string).
Arguments Done {A} a σ.
Arguments Panic {A} msg.

Definition M (A : Type) : Type := Store → outcome A.

Global Instance M_ret : MRet M := λ A a σ, Done a σ.

Global Instance M_bind : MBind M :=
  λ A B k m σ, match m σ with
               | Done a σ' => k a σ'
               | Panic msg => Panic msg
               end.

(** The value a computation returns from a store, if it does not panic. *)
Definition returns {A} (m : M A) (σ : Store) : option A :=
  match m σ with
  | Done a _ => Some a
  | Panic _ => None
  end.

(** The store a computation leaves, if it does not panic. *)
Definition leaves {A} (m : M A) (σ : Store) : option Store :=
  match m σ with
  | Done _ σ' => Some σ'
  | Panic _ => None
  end.

(** [&Firebase{...}] *)
Definition new_ref (f : Firebase) : M loc :=
  λ σ, let l := fresh (dom (refs σ)) in
       Done l (mkStore (<[l := f]> (refs σ)) (maps σ) (chans σ) (clients σ)
                 (trace σ)).

(** Reading through a [*Firebase]; a nil or dangling pointer panics. *)
Definition get_ref (fb : loc) : M Firebase :=
  λ σ, match refs σ !! fb with
       | Some f => Done f σ
       | None => Panic "invalid memory address or nil pointer dereference"
       end.

Definition set_ref (fb : loc) (f : Firebase) : M unit :=
  λ σ, Done () (mkStore (<[fb := f]> (refs σ)) (maps σ) (chans σ) (clients σ)
                  (trace σ)).

(** [_url.Values{}], or the map made by [ParseQuery] *)
Definition new_map (v : gmap string (list string)) : M loc :=
  λ σ, let l := fresh (dom (maps σ)) in
       Done l (mkStore (refs σ) (<[l := v]> (maps σ)) (chans σ) (clients σ)
                 (trace σ)).

(** Reading a map; a nil map reads as the empty map. *)
Definition read_map (p : option loc) : M (gmap string (list string)) :=
  λ σ, match p with
       | None => Done ∅ σ
       | Some l => Done (default ∅ (maps σ !! l)) σ
       end.

(** Writing an entry of a map; a nil map panics. *)
Definition update_map (p : option loc)
    (f : gmap string (list string) → gmap string (list string)) : M unit :=
  λ σ, match p with
       | None => Panic "assignment to entry in nil map"
       | Some l =>
           Done () (mkStore (refs σ)
                      (<[l := f (default ∅ (maps σ !! l))]> (maps σ))
                      (chans σ) (clients σ) (trace σ))
       end.

(** [delete(m, key)]; a nil map is left alone. *)
Definition delete_map (p : option loc) (key : string) : M unit :=
  match p with
  | None => mret ()
  | Some _ => update_map p (λ v, _url.Values_Del v key)
  end.

(** [make(chan struct{})] *)
Definition new_chan : M loc :=
  λ σ, let l := fresh (chans σ) in
       Done l (mkStore (refs σ) (maps σ) ({[l]} ∪ chans σ) (clients σ)
                 (trace σ)).

(** [&http.Client{Transport: tr, CheckRedirect: redirectPreserveHeaders}] *)
Definition new_client (c : Client) : M loc :=
  λ σ, let l := fresh (dom (clients σ)) in
       Done l (mkStore (refs σ) (maps σ) (chans σ) (<[l := c]> (clients σ))
                 (trace σ)).

(** Recording a call to an external collaborator. *)
Definition log (σ : Store) (ev : Event) : Store :=
  mkStore (refs σ) (maps σ) (chans σ) (clients σ) (trace σ ++ [ev]).

(** A call to an external collaborator: it is recorded, and answered
    according to the number of calls made before it. *)
Definition external {A} (ev : Event) (f : nat → A) : M A :=
  λ σ, Done (f (length (trace σ))) (log σ ev).

(** ** The package *)

(** query parameter constants *)
Definition accessTokenParam : string := "access_token".
Definition authParam : string := "auth".

Section firego.

Context {world : External}.

(** [func New(url string, client *http.Client) *Firebase].  The [Dial]
    function of the transport that [New] makes only bounds the time a
    connection may take. *)
Definition New (url : string) (client : option loc) : M loc :=
  client ← match client with
           | None => new_client (mkClient true true)
           | Some c => mret c
           end;
  p ← new_map ∅;
  ch ← new_chan;
  new_ref (mkFirebase (sanitizeURL url) (Some p) client None false (Some ch)).

(** [func (fb *Firebase) AccessToken(tokenSource oauth2.TokenSource)] *)
Definition AccessToken (fb : loc) (tokenSource : option TokenSource)
  : M unit :=
  f ← get_ref fb;
  set_ref fb (mkFirebase (url f) (params f) (client f) tokenSource
                (watching f) (stopWatching f)).

(** [func (fb *Firebase) Auth(token string)] *)
Definition Auth (fb : loc) (token : string) : M unit :=
  f ← get_ref fb;
  update_map (params f) (λ v, _url.Values_Set v authParam token).

(** [func (fb *Firebase) Unauth()] *)
Definition Unauth (fb : loc) : M unit :=
  f ← get_ref fb;
  delete_map (params f) authParam.

(** [func (fb *Firebase) copy() *Firebase] *)
Definition copy (fb : loc) : M loc :=
  f ← get_ref fb;
  p ← new_map ∅;
  ch ← new_chan;
  c ← new_ref (mkFirebase (url f) (Some p) (client f) (tokenSrc f) false
                 (Some ch));
  src ← read_map (params f);
  (update_map (Some p)
     (λ dst, map_fold (λ k v dst, <[k := v]> dst) dst src);;
   mret c).

(** [func (fb *Firebase) Child(child string) *Firebase] *)
Definition Child (fb : loc) (child : string) : M loc :=
  c ← copy fb;
  f ← get_ref c;
  (set_ref c (mkFirebase (url f +:+ "/" +:+ child) (params f) (client f)
                (tokenSrc f) (watching f) (stopWatching f));;
   mret c).

(** [func (fb *Firebase) String() string] *)
Definition Firebase_String (fb : loc) : M string :=
  f ← get_ref fb;
  let path := url f +:+ "/.json" in
  v ← read_map (params f);
  paramsCopy ← new_map (_url.ParseQuery (_url.Values_Encode v)).1;
  (match tokenSrc f with
   | Some ts =>
       r ← external (EvToken ts) (λ n, tokenSource_Token n ts);
       match r with
       | (Some token, None) =>
           update_map (Some paramsCopy)
             (λ v, _url.Values_Add v accessTokenParam token)
       | _ => mret ()
       end
   | None => mret ()
   end;;
   v ← read_map (Some paramsCopy);
   mret (if bool_decide (0 < size v)
        then path +:+ "?" +:+ _url.Values_Encode v
        else path)).

(** The type switch of [doRequest] on the error of [client.Do]. *)
Definition classify (err : transport_error) : error :=
  match err with
  | url_Error _ _ e1 =>
      match net_Timeout e1 with
      | Some true => ErrTimeout err
      | _ => ErrTransport err
      end
  | net_Error _ timeout _ =>
      if timeout then ErrTimeout err else ErrTransport err
  | other_error _ => ErrTransport err
  end.

(** [func (fb *Firebase) doRequest(ctx context.Context, method string,
    body []byte) ([]byte, error)] *)
Definition doRequest (fb : loc) (ctx : option Context)
    (method body : string) : M (result string) :=
  u ← Firebase_String fb;
  match http_NewRequest method u body with
  | inr msg => mret (Err (ErrRequest msg))
  | inl req =>
      let req := match ctx with
                 | Some ctx => WithContext req ctx
                 | None => req
                 end in
      f ← get_ref fb;
      r ← external (EvDo (client f) req) (λ n, client_Do n (client f) req);
      match r with
      | inr err => mret (Err (classify err))
      | inl resp =>
          match ReadAll resp with
          | inr msg => mret (Err (ErrRead msg))
          | inl respBody =>
              if negb (Z.quot (StatusCode resp) 200 =? 1)%Z
              then mret (Err (ErrApplication respBody))
              else mret (Ok respBody)
          end
      end
  end.

(** [json.Unmarshal(bytes, v)] *)
Definition unmarshal (bytes : string) : M (result value) :=
  r ← external (EvUnmarshal bytes) (λ _, json_Unmarshal bytes);
  mret (match r with
       | inl v => Ok v
       | inr msg => Err (ErrJSON msg)
       end).

(** [func (fb *Firebase) PushC(ctx context.Context, v interface{})
    ( *Firebase, error)] *)
Definition PushC (fb : loc) (ctx : option Context) (v : value)
  : M (result loc) :=
  match json_Marshal v with
  | inr msg => mret (Err (ErrJSON msg))
  | inl bytes =>
      r ← doRequest fb ctx "POST" bytes;
      match r with
      | Err e => mret (Err e)
      | Ok bytes =>
          r ← external (EvUnmarshal bytes) (λ _, json_Unmarshal_map bytes);
          match r with
          | inr msg => mret (Err (ErrJSON msg))
          | inl m =>
              f ← get_ref fb;
              c ← new_ref (mkFirebase
                             (url f +:+ "/" +:+ default "" (m !! "name"))
                             None (client f) None false None);
              mret (Ok c)
          end
      end
  end.

(** [func (fb *Firebase) RemoveC(ctx context.Context) error] *)
Definition RemoveC (fb : loc) (ctx : option Context) : M (result unit) :=
  r ← doRequest fb ctx "DELETE" "";
  match r with
  | Err e => mret (Err e)
  | Ok _ => mret (Ok ())
  end.

(** [func (fb *Firebase) SetC(ctx context.Context, v interface{}) error] *)
Definition SetC (fb : loc) (ctx : option Context) (v : value)
  : M (result unit) :=
  match json_Marshal v with
  | inr msg => mret (Err (ErrJSON msg))
  | inl bytes =>
      r ← doRequest fb ctx "PUT" bytes;
      match r with
      | Err e => mret (Err e)
      | Ok _ => mret (Ok ())
      end
  end.

(** [func (fb *Firebase) UpdateC(ctx context.Context, v interface{})
    error] *)
Definition UpdateC (fb : loc) (ctx : option Context) (v : value)
  : M (result unit) :=
  match json_Marshal v with
  | inr msg => mret (Err (ErrJSON msg))
  | inl bytes =>
      r ← doRequest fb ctx "PATCH" bytes;
      match r with
      | Err e => mret (Err e)
      | Ok _ => mret (Ok ())
      end
  end.

(** [func (fb *Firebase) ValueC(ctx context.Context, v interface{})
    error]; the value decoded into [v] is returned. *)
Definition ValueC (fb : loc) (ctx : option Context) : M (result value) :=
  r ← doRequest fb ctx "GET" "";
  match r with
  | Err e => mret (Err e)
  | Ok bytes => unmarshal bytes
  end.

(** [func (fb *Firebase) MustValueC(ctx context.Context, v interface{})
    error] *)
Definition MustValueC (fb : loc) (ctx : option Context)
  : M (result value) :=
  r ← doRequest fb ctx "GET" "";
  match r with
  | Err e => mret (Err e)
  | Ok bytes =>
      if bool_decide (String.length bytes = 0)
         || bool_decide (bytes = "null")
      then mret (Err ErrValueMissing)
      else unmarshal bytes
  end.

(** The variants without a context pass [nil]. *)
Definition Push (fb : loc) (v : value) : M (result loc) := PushC fb None v.
Definition Remove (fb : loc) : M (result unit) := RemoveC fb None.
Definition Set_ (fb : loc) (v : value) : M (result unit) := SetC fb None v.
Definition Update (fb : loc) (v : value) : M (result unit) :=
  UpdateC fb None v.
Definition Value (fb : loc) : M (result value) := ValueC fb None.
Definition MustValue (fb : loc) : M (result value) := MustValueC fb None.

End firego.

(** ** A transport for examples

    A world in which every call to the transport gets the same answer and
    the token source gives the same token; values are their own JSON text,
    and the document decoded for [PushC] has the whole body as its
    ["name"]. *)
Definition mock (answer : Response + transport_error)
    (token : option string * option string) : External :=
  {| value := string;
     json_Marshal := λ v, inl v;
     json_Unmarshal := λ bytes, inl bytes;
     json_Unmarshal_map := λ bytes, inl {[ "name"%string := bytes ]};
     http_NewRequest_error := λ _ _, None;
     client_Do := λ _ _ _, answer;
     tokenSource_Token := λ _ _, token |}.

(** The world in which the server answers with a status code and a body,
    and no token source resolves. *)
Definition answering (status : Z) (body : string) : External :=
  mock (inl (mkResponse status (inl body))) (None, None).

(** The error of a transport that waited too long for the response
    headers, and the world in which every round trip ends with it. *)
Definition header_timeout : transport_error :=
  url_Error "Get" "https://example.com/.json"
    (net_Error "net/http: timeout awaiting response headers" true true).

Definition timing_out : External := mock (inr header_timeout) (None, None).

(** The store after [New("example.com", nil)], which returns the
    Reference [1]. *)
Definition store0 : Store :=
  default empty_store (leaves (New "example.com" None) empty_store).

(** The request after [req.WithContext(ctx)], when [ctx != nil]. *)
Definition with_ctx (req : Request) (ctx : option Context) : Request :=
  match ctx with
  | Some ctx => WithContext req ctx
  | None => req
  end.

(** ** Rendering, as a function of what is in the store *)

(** The token that [String] adds to the copy of the query map: the token
    source must answer with a token and no error. *)
Definition resolved (answer : option string * option string)
  : option string :=
  match answer with
  | (Some token, None) => Some token
  | _ => None
  end.

(** The map read through the [params] field. *)
Definition params_of (σ : Store) (f : Firebase) : gmap string (list string) :=
  match params f with
  | Some l => default ∅ (maps σ !! l)
  | None => ∅
  end.

(** The local [paramsCopy] of [String]. *)
Definition paramsCopy_of (v : gmap string (list string))
    (token : option string) : gmap string (list string) :=
  let paramsCopy := (_url.ParseQuery (_url.Values_Encode v)).1 in
  match token with
  | Some token => _url.Values_Add paramsCopy accessTokenParam token
  | None => paramsCopy
  end.

(** The string that [String] returns for a given [paramsCopy]. *)
Definition render (path : string) (paramsCopy : gmap string (list string))
  : string :=
  if bool_decide (0 < size paramsCopy)
  then (path +:+ "/.json") +:+ "?" +:+ _url.Values_Encode paramsCopy
  else path +:+ "/.json".

(** Every map a Reference points to is allocated. *)
Definition wf (σ : Store) : Prop :=
  ∀ fb f l, refs σ !! fb = Some f → params f = Some l → is_Some (maps σ !! l).

(** [n] calls of [String] on the same Reference. *)
Fixpoint String_times {world : External} (n : nat) (fb : loc) : M (list string) :=
  match n with
  | O => mret []
  | S n => s ← Firebase_String fb; ss ← String_times n fb; mret (s :: ss)
  end.

(** A chain of [Child] derivations. *)
Fixpoint Children (fb : loc) (names : list string) : M loc :=
  match names with
  | [] => mret fb
  | name :: names => c ← Child fb name; Children c names
  end.

(** ** The words of the specification about errors *)

(** "a [net.Error] with [Timeout()] true" *)
Definition net_timeout (e : transport_error) : bool :=
  bool_decide (net_Timeout e = Some true).

(** "whether returned directly or wrapped inside a [url.Error]" *)
Definition timed_out (e : transport_error) : bool :=
  net_timeout e
  || match e with
     | url_Error _ _ inner => net_timeout inner
     | _ => false
     end.

(** "empty or the literal string null" *)
Definition missing (bytes : string) : bool :=
  bool_decide (bytes = EmptyString) || bool_decide (bytes = "null"%string).

(** The JSON text [{"x":1}]. *)
Definition json_x1 : string :=
  "{" +:+ String (ascii_of_nat 34) "x" +:+ String (ascii_of_nat 34) ":1}".

(** ** The words of the specification about References *)

(** The query map of a Reference. *)
Definition query_map (fb : loc) (σ : Store) : gmap string (list string) :=
  match refs σ !! fb with
  | Some f => params_of σ f
  | None => ∅
  end.

(** The path of a Reference. *)
Definition path_of (fb : loc) (σ : Store) : string :=
  match refs σ !! fb with
  | Some f => url f
  | None => EmptyString
  end.

(** The store after [New("example.com", nil)] and [Auth("old")]. *)
Definition store_auth_old : Store :=
  default empty_store (leaves (Auth 1%positive "old") store0).

(** A child name that leaves no slash at the end of a path. *)
Definition plain_name (name : string) : Prop :=
  name ≠ EmptyString ∧ strings.HasSuffix name "/" = false.

(** Two requests of a redirect chain: the first carries an
    [Authorization] header, which the default policy would drop. *)
Definition first_request : Request :=
  mkRequest "GET" "https://example.com/.json"
    {[ "Authorization"%string := ["Bearer t"%string];
       "X-Firebase"%string := ["a"%string] ]}
    EmptyString None.

Definition second_request : Request :=
  mkRequest "GET" "https://other.example.com/.json"
    {[ "X-Firebase"%string := ["b"%string];
       "Referer"%string := ["https://example.com/.json"%string] ]}
    EmptyString None.

(** ** The canonical encoding of a query map *)

(** The key/value pairs that [Encode] writes, in the order in which it
    writes them. *)
Definition pairs (v : gmap string (list string)) : list (string * string) :=
  k ← _url.sortedKeys v; (λ x, (k, x)) <$> default [] (v !! k).

(** One [key=value] of the encoding. *)
Definition encodePair (p : string * string) : string :=
  _url.QueryEscape p.1 +:+ "=" +:+ _url.QueryEscape p.2.

(** The step of the inner loop of [Encode], for a segment already built. *)
Definition append_segment (buf seg : string) : string :=
  (if bool_decide (0 < String.length buf) then buf +:+ "&" else buf) +:+ seg.

(** The entries of a query map that hold at least one value: those that
    the encoding shows. *)
Definition nonempty (v : gmap string (list string))
  : gmap string (list string) :=
  filter (λ kv, kv.2 ≠ []) v.

(** The query string of a rendered URL: what follows the question mark. *)
Definition query_of (rendered : string) : string :=
  (_url.Cut rendered "?").1.2.

(** A segment as [Encode] writes it: not empty, and without ampersand. *)
Definition segment_ok (seg : string) : Prop :=
  seg ≠ EmptyString ∧ _url.Contains seg "&" = false.

(** ** Later changes to a Reference *)

(** The operations that change a Reference in place. *)
Inductive Mutation : Type :=
  | MAuth (token : string)
  | MUnauth
  | MAccessToken (tokenSource : option TokenSource).

Definition mutate (fb : loc) (mu : Mutation) : M unit :=
  match mu with
  | MAuth token => Auth fb token
  | MUnauth => Unauth fb
  | MAccessToken tokenSource => AccessToken fb tokenSource
  end.

Fixpoint mutations (fb : loc) (mus : list Mutation) : M unit :=
  match mus with
  | [] => mret ()
  | mu :: mus => mutate fb mu;; mutations fb mus
  end.

(** The world in which the token source resolves the token [tok]. *)
Definition tokened : External :=
  mock (inl (mkResponse 200 (inl "null"))) (Some "tok"%string, None).

(** The store after [New("example.com", nil)] and [AccessToken(ts)]. *)
Definition store_tok : Store :=
  default empty_store (leaves (AccessToken 1%positive (Some 7)) store0).

(** ** What a caller can observe of the round trips *)

(** The requests handed to the transport so far, oldest first. *)
Definition requests (σ : Store) : list Request :=
  omap (λ ev, match ev with EvDo _ req => Some req | _ => None end) (trace σ).

(** The token sources asked for a token so far, oldest first. *)
Definition token_calls (σ : Store) : list TokenSource :=
  omap (λ ev, match ev with EvToken ts => Some ts | _ => None end) (trace σ).

(** Nothing that was in the store has changed: every Reference and every
    query map of [σ] is in [σ'] as it was. *)
Definition extends (σ σ' : Store) : Prop :=
  (∀ fb f, refs σ !! fb = Some f → refs σ' !! fb = Some f)
  ∧ (∀ l v, maps σ !! l = Some v → maps σ' !! l = Some v).

(** The operations that make a round trip. *)
Inductive Operation {world : External} : Type :=
  | OpRemove
  | OpSet (v : value)
  | OpUpdate (v : value)
  | OpValue
  | OpMustValue
  | OpPush (v : value).

(** An operation, with what it returns left out. *)
Definition perform {world : External} (fb : loc) (ctx : option Context)
    (op : Operation) : M unit :=
  match op with
  | OpRemove => RemoveC fb ctx;; mret ()
  | OpSet v => SetC fb ctx v;; mret ()
  | OpUpdate v => UpdateC fb ctx v;; mret ()
  | OpValue => ValueC fb ctx;; mret ()
  | OpMustValue => MustValueC fb ctx;; mret ()
  | OpPush v => PushC fb ctx v;; mret ()
  end.

(** ** More worlds for examples *)

(** A world given by its codec, its request check, the answer of its
    transport and the answer of its token source. *)
Definition world_of (marshal : string → string + string)
    (decode_map : string → gmap string string + string)
    (request_error : string → string → option string)
    (answer : Response + transport_error)
    (token : option string * option string) : External :=
  {| value := string;
     json_Marshal := marshal;
     json_Unmarshal := λ bytes, inl bytes;
     json_Unmarshal_map := decode_map;
     http_NewRequest_error := request_error;
     client_Do := λ _ _ _, answer;
     tokenSource_Token := λ _ _, token |}.

(** The world in which no value can be encoded. *)
Definition unencodable : External :=
  world_of (λ _, inr "json: unsupported type"%string) (λ _, inl ∅)
    (λ _ _, None) (inl (mkResponse 200 (inl "null"))) (None, None).

(** The world in which no request can be built. *)
Definition bad_request : External :=
  world_of inl (λ _, inl ∅)
    (λ _ _, Some "net/http: invalid method"%string)
    (inl (mkResponse 200 (inl "null"))) (None, None).

(** The world in which the body of the response cannot be read. *)
Definition truncated : External :=
  mock (inl (mkResponse 200 (inr "unexpected EOF"))) (None, None).

(** The world in which the token source fails. *)
Definition token_failing : External :=
  mock (inl (mkResponse 200 (inl "null")))
    (None, Some "oauth2: cannot fetch token"%string).


(** Evaluating a closed term and keeping the equation. *)
Ltac run_as t H :=
  let v := eval vm_compute in t in
  assert (t = v) as H by (vm_compute; reflexivity).

Tactic Notation "run" constr(t) "as" ident(H) := run_as t H.

(** ** Facts about strings *)

Section string_facts.

Lemma app_nil_l (t : string) : "" +:+ t = t.
Proof. done. Qed.

Lemma app_cons (a : ascii) (s t : string) :
  String a s +:+ t = String a (s +:+ t).
Proof. done. Qed.

Lemma length_app (s t : string) :
  String.length (s +:+ t) = String.length s + String.length t.
Proof.
  induction s as [|a s IH]; [done|]. rewrite app_cons. simpl. by rewrite IH.
Qed.

Lemma app_assoc (s t u : string) : (s +:+ t) +:+ u = s +:+ (t +:+ u).
Proof.
  induction s as [|a s IH]; [done|]. rewrite !app_cons. by rewrite IH.
Qed.

Lemma app_empty_r (s : string) : s +:+ "" = s.
Proof.
  induction s as [|a s IH]; [done|]. rewrite app_cons. by rewrite IH.
Qed.

Lemma substring_0_app (s t : string) :
  String.substring 0 (String.length s) (s +:+ t) = s.
Proof.
  induction s as [|a s IH]; [by destruct t|].
  rewrite app_cons. simpl. by rewrite IH.
Qed.

Lemma substring_skip_app (s t : string) n :
  String.substring (String.length s) n (s +:+ t) = String.substring 0 n t.
Proof. induction s as [|a s IH]; [done|]. rewrite app_cons. done. Qed.

Lemma substring_0_all (s : string) :
  String.substring 0 (String.length s) s = s.
Proof. induction s as [|a s IH]; simpl; [done|]. by rewrite IH. Qed.

(** Cutting a string at any position inside it. *)
Lemma substring_split (s : string) n :
  n ≤ String.length s →
  s = String.substring 0 n s
      +:+ String.substring n (String.length s - n) s.
Proof.
  revert n. induction s as [|a s IH]; intros [|n] Hn; simpl in *;
    try done; try lia.
  - rewrite app_nil_l. by rewrite substring_0_all.
  - rewrite app_cons. f_equal. apply IH. lia.
Qed.

Lemma eqb_true (s t : string) : String.eqb s t = true ↔ s = t.
Proof. apply String.eqb_eq. Qed.

Lemma HasPrefix_spec (s p : string) :
  strings.HasPrefix s p = true ↔ ∃ r, s = p +:+ r.
Proof.
  unfold strings.HasPrefix. rewrite andb_true_iff, Nat.leb_le, eqb_true.
  split.
  - intros [Hlen Hsub].
    exists (String.substring (String.length p)
                             (String.length s - String.length p) s).
    rewrite <-Hsub at 1. by apply substring_split.
  - intros [r ->]. rewrite length_app, substring_0_app. split; [lia|done].
Qed.

Lemma HasSuffix_spec (s p : string) :
  strings.HasSuffix s p = true ↔ ∃ r, s = r +:+ p.
Proof.
  unfold strings.HasSuffix. rewrite andb_true_iff, Nat.leb_le, eqb_true.
  split.
  - intros [Hlen Hsub].
    exists (String.substring 0 (String.length s - String.length p) s).
    pose proof (substring_split s (String.length s - String.length p)
                  ltac:(lia)) as Hs.
    replace (String.length s - (String.length s - String.length p))
      with (String.length p) in Hs by lia.
    by rewrite Hsub in Hs.
  - intros [r ->]. rewrite length_app. split; [lia|].
    replace (String.length r + String.length p - String.length p)
      with (String.length r) by lia.
    by rewrite substring_skip_app, substring_0_all.
Qed.

Lemma HasPrefix_app (p r : string) : strings.HasPrefix (p +:+ r) p = true.
Proof. apply HasPrefix_spec. by exists r. Qed.

Lemma HasSuffix_app (r p : string) : strings.HasSuffix (r +:+ p) p = true.
Proof. apply HasSuffix_spec. by exists r. Qed.

Lemma HasPrefix_app_l (s p t : string) :
  strings.HasPrefix s p = true → strings.HasPrefix (s +:+ t) p = true.
Proof.
  rewrite !HasPrefix_spec. intros [r ->]. exists (r +:+ t).
  apply app_assoc.
Qed.

(** [url[:len(url)-1]] removes exactly the last byte. *)
Lemma slice_drop_last (r : string) (c : ascii) :
  let s := r +:+ String c "" in
  String.substring 0 (String.length s - 1) s = r.
Proof.
  simpl. rewrite length_app. simpl.
  replace (String.length r + 1 - 1) with (String.length r) by lia.
  apply substring_0_app.
Qed.

Lemma length_substring_0 (s : string) n :
  n ≤ String.length s → String.length (String.substring 0 n s) = n.
Proof.
  revert n. induction s as [|c s IH]; intros [|n] Hn; simpl in *;
    try done; try lia.
  rewrite IH; lia.
Qed.

(** Two decompositions with tails of the same length agree. *)
Lemma app_inj_len (a b c d : string) :
  a +:+ c = b +:+ d → String.length c = String.length d → a = b ∧ c = d.
Proof.
  revert b. induction a as [|x a IH]; intros [|y b] H Hlen.
  - done.
  - rewrite app_nil_l in H. subst c. rewrite app_cons in Hlen. simpl in Hlen.
    rewrite length_app in Hlen. lia.
  - rewrite app_nil_l in H. subst d. rewrite app_cons in Hlen. simpl in Hlen.
    rewrite length_app in Hlen. lia.
  - rewrite !app_cons in H. injection H as -> H.
    destruct (IH _ H Hlen) as [-> ->]. done.
Qed.

(** A suffix no longer than [t] is decided by [t] alone. *)
Lemma HasSuffix_app_r (s t p : string) :
  String.length p ≤ String.length t →
  strings.HasSuffix (s +:+ t) p = strings.HasSuffix t p.
Proof.
  intros Hlen. apply eq_true_iff_eq. rewrite !HasSuffix_spec. split.
  - intros [r Hr].
    pose proof (substring_split t (String.length t - String.length p)
                  ltac:(lia)) as Ht.
    set (t1 := String.substring 0 _ t) in Ht.
    set (t2 := String.substring _ _ t) in Ht.
    assert (String.length t2 = String.length p) as Hl.
    { apply (f_equal String.length) in Ht. rewrite length_app in Ht.
      unfold t1 in Ht. rewrite length_substring_0 in Ht by lia. lia. }
    exists t1. rewrite Ht in Hr. rewrite <-app_assoc in Hr.
    apply app_inj_len in Hr as [_ ->]; done.
  - intros [r ->]. exists (s +:+ r). by rewrite app_assoc.
Qed.

End string_facts.

(** ** [sanitizeURL] *)

Section sanitize.

Lemma sanitizeURL_unfold (u : string) :
  sanitizeURL u =
    if strings.HasSuffix (withScheme u) "/"
    then String.substring 0 (String.length (withScheme u) - 1) (withScheme u)
    else withScheme u.
Proof. done. Qed.

Lemma hasScheme_spec (s : string) :
  hasScheme s = true ↔
  ∃ rest, s = "http://" +:+ rest ∨ s = "https://" +:+ rest.
Proof.
  unfold hasScheme. rewrite orb_true_iff, !HasPrefix_spec.
  split; [intros [[r ->]|[r ->]]; eauto|intros [r [->| ->]]; eauto].
Qed.

Lemma withScheme_hasScheme (u : string) : hasScheme (withScheme u) = true.
Proof.
  unfold withScheme, hasScheme.
  destruct (strings.HasPrefix u "https://") eqn:E1;
    destruct (strings.HasPrefix u "http://") eqn:E2; simpl;
    rewrite ?E1, ?E2, ?orb_true_r; try done.
  apply HasPrefix_app.
Qed.

Lemma withScheme_id (s : string) : hasScheme s = true → withScheme s = s.
Proof.
  unfold withScheme, hasScheme.
  by destruct (strings.HasPrefix s "https://"),
    (strings.HasPrefix s "http://").
Qed.

(** A string that already has a scheme and no trailing slash is left
    alone. *)
Lemma sanitizeURL_normalized (s : string) : normalized s → sanitizeURL s = s.
Proof.
  intros [Hs Hn]. rewrite sanitizeURL_unfold, withScheme_id by done.
  by rewrite Hn.
Qed.

Lemma HasSuffix_slash2 (r : string) :
  strings.HasSuffix (r +:+ "/") "//" = strings.HasSuffix r "/".
Proof.
  apply eq_true_iff_eq. rewrite !HasSuffix_spec. split.
  - intros [q Hq]. exists q.
    change "//"%string with ("/" +:+ "/") in Hq. rewrite <-app_assoc in Hq.
    by apply app_inj_len in Hq as [-> _].
  - intros [q ->]. exists q. by rewrite app_assoc.
Qed.

(** When the scheme-defaulted input does not end in two slashes, one
    stripped slash is enough. *)
Lemma sanitizeURL_normalizes (u : string) :
  strings.HasSuffix (withScheme u) "//" = false → normalized (sanitizeURL u).
Proof.
  intros H2. rewrite sanitizeURL_unfold.
  pose proof (withScheme_hasScheme u) as Hs.
  destruct (strings.HasSuffix (withScheme u) "/") eqn:H1; [|done].
  apply HasSuffix_spec in H1 as [r Hr]. rewrite Hr in *.
  rewrite HasSuffix_slash2 in H2.
  rewrite (slice_drop_last r "/"). split; [|done].
  apply hasScheme_spec in Hs as [rest Hrest]. apply hasScheme_spec.
  destruct rest as [|c rest].
  { destruct Hrest as [Hrest|Hrest]; rewrite app_empty_r in Hrest.
    - change "http://"%string with ("http:/" +:+ "/") in Hrest.
      apply app_inj_len in Hrest as [-> _]; done.
    - change "https://"%string with ("https:/" +:+ "/") in Hrest.
      apply app_inj_len in Hrest as [-> _]; done. }
  assert (∃ rest', String c rest = rest' +:+ "/") as [rest' Hr'].
  { apply HasSuffix_spec.
    destruct Hrest as [Hrest|Hrest].
    - rewrite <-(HasSuffix_app_r "http://" (String c rest)), <-Hrest
        by (simpl; lia). apply HasSuffix_app.
    - rewrite <-(HasSuffix_app_r "https://" (String c rest)), <-Hrest
        by (simpl; lia). apply HasSuffix_app. }
  exists rest'. rewrite Hr' in Hrest. rewrite <-!app_assoc in Hrest.
  destruct Hrest as [Hrest|Hrest];
    apply app_inj_len in Hrest as [-> _]; auto.
Qed.

(** The condition is necessary as well. *)
Lemma sanitizeURL_slash2 (u : string) :
  strings.HasSuffix (withScheme u) "//" = true →
  strings.HasSuffix (sanitizeURL u) "/" = true.
Proof.
  intros H2. rewrite sanitizeURL_unfold.
  apply HasSuffix_spec in H2 as [r Hr]. rewrite Hr.
  change "//"%string with ("/" +:+ "/"). rewrite <-app_assoc.
  rewrite HasSuffix_app, (slice_drop_last (r +:+ "/") "/").
  apply HasSuffix_app.
Qed.

(** [sanitizeURL] meets its specification exactly on the inputs whose
    scheme-defaulted form does not end in two slashes. *)
Lemma sanitize_spec_iff (u : string) :
  sanitize_spec u ↔ strings.HasSuffix (withScheme u) "//" = false.
Proof.
  split.
  - intros (_ & _ & Hn).
    destruct (strings.HasSuffix (withScheme u) "//") eqn:E; [|done].
    apply sanitizeURL_slash2 in E. congruence.
  - intros H. pose proof (sanitizeURL_normalizes u H) as Hn.
    split; [by apply sanitizeURL_normalized|]. exact Hn.
Qed.

End sanitize.

(** C2 (as stated): [sanitizeURL] is not idempotent on ["example.com//"],
    and its result there, ["https://example.com/"], ends with a slash: only
    one trailing slash is stripped. *)
Lemma sanitizeURL_double_slash :
  sanitizeURL "example.com//" = "https://example.com/"%string
  ∧ sanitizeURL (sanitizeURL "example.com//") = "https://example.com"%string
  ∧ ¬ sanitize_spec "example.com//".
Proof.
  split_and!; [done..|]. intros (Hidem & _ & _). vm_compute in Hidem. done.
Qed.

(** The scheme can be lost as well: the empty input is defaulted to
    ["https://"], whose last slash is then stripped. *)
Lemma sanitizeURL_empty :
  sanitizeURL "" = "https:/"%string ∧ hasScheme (sanitizeURL "") = false.
Proof. done. Qed.

(** C2 (amended): for every input whose scheme-defaulted form does not end
    with two slashes, [sanitizeURL] is idempotent, its result begins with
    [http://] or [https://], and its result does not end with a slash. *)
Theorem sanitizeURL_spec_single_slash (u : string) :
  strings.HasSuffix (withScheme u) "//" = false →
  sanitizeURL (sanitizeURL u) = sanitizeURL u
  ∧ hasScheme (sanitizeURL u) = true
  ∧ strings.HasSuffix (sanitizeURL u) "/" = false.
Proof.
  intros H. pose proof (sanitizeURL_normalizes u H) as Hn.
  split; [by apply sanitizeURL_normalized|]. exact Hn.
Qed.

Lemma sanitizeURL_spec_single_slash_witness :
  strings.HasSuffix (withScheme "example.com/a/") "//" = false
  ∧ sanitizeURL "example.com/a/" = "https://example.com/a"%string
  ∧ sanitize_spec "example.com/a/".
Proof.
  split; [reflexivity|]. split; [reflexivity|].
  apply (sanitizeURL_spec_single_slash "example.com/a/"). reflexivity.
Defined.

(** ** The state monad *)

Section monad.

Lemma bind_Done {A B} (m : M A) (k : A → M B) σ a σ' :
  m σ = Done a σ' → (m ≫= k) σ = k a σ'.
Proof. intros E. unfold mbind, M_bind. by rewrite E. Qed.

Lemma bind_Panic {A B} (m : M A) (k : A → M B) σ msg :
  m σ = Panic msg → (m ≫= k) σ = Panic msg.
Proof. intros E. unfold mbind, M_bind. by rewrite E. Qed.

Lemma get_ref_Done fb f σ : refs σ !! fb = Some f → get_ref fb σ = Done f σ.
Proof. intros E. unfold get_ref. by rewrite E. Qed.

End monad.

(** ** [doRequest] *)

Section doRequest.

Context {world : External}.

(** [doRequest], once the URL is rendered. *)
Lemma doRequest_rendered fb ctx method body σ u σ1 f :
  Firebase_String fb σ = Done u σ1 →
  refs σ1 !! fb = Some f →
  doRequest fb ctx method body σ =
    match http_NewRequest method u body with
    | inr msg => Done (Err (ErrRequest msg)) σ1
    | inl req =>
        let req := with_ctx req ctx in
        Done
          match client_Do (length (trace σ1)) (client f) req with
          | inr err => Err (classify err)
          | inl resp =>
              match ReadAll resp with
              | inr msg => Err (ErrRead msg)
              | inl respBody =>
                  if negb (Z.quot (StatusCode resp) 200 =? 1)%Z
                  then Err (ErrApplication respBody)
                  else Ok respBody
              end
          end
          (log σ1 (EvDo (client f) req))
    end.
Proof.
  intros Hs Hf. unfold doRequest. rewrite (bind_Done _ _ _ _ _ Hs).
  destruct (http_NewRequest method u body) as [req|msg]; [|done].
  rewrite (bind_Done _ _ _ _ _ (get_ref_Done _ _ _ Hf)).
  unfold with_ctx. unfold mbind, M_bind, external. simpl.
  destruct (client_Do _ _ _) as [resp|err]; [|done].
  destruct (ReadAll resp); [|done].
  by destruct (negb _).
Qed.

(** [resp.StatusCode/200 != 1]: Go's integer division truncates. *)
Lemma status_quot_200 (s : Z) : (Z.quot s 200 =? 1)%Z = true ↔ (200 ≤ s < 400)%Z.
Proof.
  rewrite Z.eqb_eq. split.
  - intros E. destruct (Z_lt_le_dec s 0) as [Hneg|Hpos].
    + pose proof (Z.quot_opp_l s 200 ltac:(lia)) as Ho.
      assert (0 ≤ Z.quot (- s) 200)%Z by (apply Z.quot_pos; lia). lia.
    + rewrite Z.quot_div_nonneg in E by lia.
      pose proof (Z.div_mod s 200 ltac:(lia)).
      pose proof (Z.mod_pos_bound s 200 ltac:(lia)). lia.
  - intros Hs. rewrite Z.quot_div_nonneg by lia.
    symmetry. apply (Z.div_unique s 200 1 (s - 200)); lia.
Qed.

End doRequest.

(** ** Running the operations *)

Section run.

Context {world : External}.

Lemma map_fold_insert_lookup {A} (src dst : gmap string A) k :
  map_fold (λ k v dst, <[k := v]> dst) dst src !! k = (src ∪ dst) !! k.
Proof.
  revert k.
  apply (map_fold_weak_ind (λ r m, ∀ k, r !! k = (m ∪ dst) !! k)).
  - intros k. by rewrite (left_id_L ∅ (∪)).
  - intros i x m r Hi IH k. rewrite <-insert_union_l.
    destruct (decide (i = k)) as [->|Hne].
    + by rewrite !lookup_insert_eq.
    + by rewrite !lookup_insert_ne.
Qed.

(** The loop of [copy] fills an empty map with the entries of the source. *)
Lemma map_fold_insert_empty {A} (src : gmap string A) :
  map_fold (λ k v dst, <[k := v]> dst) ∅ src = src.
Proof.
  apply map_eq. intros k.
  by rewrite map_fold_insert_lookup, (right_id_L ∅ (∪)).
Qed.

Lemma fresh_map_None {A} (m : gmap loc A) : m !! fresh (dom m) = None.
Proof. apply not_elem_of_dom, is_fresh. Qed.

Lemma fresh_map_ne {A} (m : gmap loc A) l :
  is_Some (m !! l) → l ≠ fresh (dom m).
Proof. intros [x Hx] ->. by rewrite fresh_map_None in Hx. Qed.

(** [String] on an allocated Reference: the value returned and the store
    left behind. *)
Lemma String_run fb f σ :
  refs σ !! fb = Some f →
  let token :=
    match tokenSrc f with
    | Some ts => resolved (tokenSource_Token (length (trace σ)) ts)
    | None => None
    end in
  let paramsCopy := paramsCopy_of (params_of σ f) token in
  Firebase_String fb σ =
    Done (render (url f) paramsCopy)
      (mkStore (refs σ) (<[fresh (dom (maps σ)) := paramsCopy]> (maps σ))
         (chans σ) (clients σ)
         (match tokenSrc f with
          | Some ts => trace σ ++ [EvToken ts]
          | None => trace σ
          end)).
Proof.
  intros Hf. simpl. unfold Firebase_String.
  rewrite (bind_Done _ _ _ _ _ (get_ref_Done _ _ _ Hf)).
  unfold mbind, M_bind, mret, M_ret, read_map, new_map, params_of,
    paramsCopy_of, render.
  destruct (params f) as [l|]; destruct (tokenSrc f) as [ts|]; simpl;
    unfold resolved;
    try destruct (tokenSource_Token (length (trace σ)) ts)
      as [[token|] [msg|]];
    simpl; rewrite ?lookup_insert_eq, ?insert_insert_eq; simpl; done.
Qed.

(** [String] leaves every Reference and every allocated map as it was. *)
Lemma String_frame fb f σ :
  refs σ !! fb = Some f →
  ∃ s σ', Firebase_String fb σ = Done s σ'
          ∧ refs σ' = refs σ
          ∧ (∀ l, is_Some (maps σ !! l) → maps σ' !! l = maps σ !! l)
          ∧ chans σ' = chans σ ∧ clients σ' = clients σ.
Proof.
  intros Hf. eexists _, _. split; [by apply String_run|]. simpl.
  split_and!; try done.
  intros l Hl. rewrite lookup_insert_ne; [done|].
  intros E. by apply (fresh_map_ne _ _ Hl).
Qed.

End run.

(** ** Classification of the outcome of a round trip *)

Section classification.

Context {world : External}.

Lemma classify_timed_out (err : transport_error) :
  classify err = if timed_out err then ErrTimeout err else ErrTransport err.
Proof.
  unfold timed_out, net_timeout.
  destruct err as [msg [] tmp|op u inner|msg]; simpl; try done.
  destruct (net_Timeout inner) as [[]|]; done.
Qed.

(** A response whose body could be read is an application error exactly
    when [StatusCode/200 != 1], that is outside [200, 400). *)
Lemma doRequest_response fb f ctx method body σ u σ1 req resp respBody :
  refs σ !! fb = Some f →
  Firebase_String fb σ = Done u σ1 →
  http_NewRequest method u body = inl req →
  client_Do (length (trace σ1)) (client f) (with_ctx req ctx) = inl resp →
  ReadAll resp = inl respBody →
  doRequest fb ctx method body σ =
    Done (if bool_decide (200 ≤ StatusCode resp < 400)%Z
          then Ok respBody else Err (ErrApplication respBody))
      (log σ1 (EvDo (client f) (with_ctx req ctx))).
Proof.
  intros Hf Hs Hreq Hdo Hread.
  assert (refs σ1 !! fb = Some f) as Hf1.
  { rewrite (String_run fb f σ Hf) in Hs. by simplify_eq. }
  rewrite (doRequest_rendered _ _ _ _ _ _ _ _ Hs Hf1), Hreq. simpl.
  rewrite Hdo, Hread. f_equal.
  destruct (Z.quot (StatusCode resp) 200 =? 1)%Z eqn:E; simpl.
  - apply status_quot_200 in E. by rewrite bool_decide_eq_true_2.
  - rewrite bool_decide_eq_false_2; [done|].
    intros Hr. apply status_quot_200 in Hr. congruence.
Qed.

End classification.

(** C1: a response with status 403 and body [permission denied] is an
    application error with exactly that message, but a response with
    status 301, which is outside [200, 300), is returned as a success:
    the test of [doRequest] is [StatusCode/200 != 1]. *)
Theorem doRequest_status_301_succeeds :
  returns
    (fb ← New "example.com" None;
     doRequest (world := answering 403 "permission denied") fb None "GET" "")
    empty_store
  = Some (Err (ErrApplication "permission denied"))
  ∧ returns
      (fb ← New "example.com" None;
       doRequest (world := answering 301 "moved") fb None "GET" "")
      empty_store
    = Some (Ok "moved").
Proof. split; vm_compute; reflexivity. Qed.

(** C4: when the transport fails, [doRequest] returns [ErrTimeout]
    wrapping the error if the error is a [net.Error] whose [Timeout()] is
    true, returned directly or wrapped inside a [url.Error], and returns
    the error of the transport itself otherwise. *)
Theorem doRequest_transport_error {world : External}
    fb f ctx method body σ u σ1 req err :
  refs σ !! fb = Some f →
  Firebase_String fb σ = Done u σ1 →
  http_NewRequest method u body = inl req →
  client_Do (length (trace σ1)) (client f) (with_ctx req ctx) = inr err →
  doRequest fb ctx method body σ =
    Done (Err (if timed_out err then ErrTimeout err else ErrTransport err))
      (log σ1 (EvDo (client f) (with_ctx req ctx))).
Proof.
  intros Hf Hs Hreq Hdo.
  assert (refs σ1 !! fb = Some f) as Hf1.
  { rewrite (String_run fb f σ Hf) in Hs. by simplify_eq. }
  rewrite (doRequest_rendered _ _ _ _ _ _ _ _ Hs Hf1), Hreq. simpl.
  by rewrite Hdo, classify_timed_out.
Qed.

Lemma doRequest_transport_error_witness :
  returns (doRequest (world := timing_out) 1%positive None "GET" "") store0
  = Some (Err (ErrTimeout header_timeout)).
Proof.
  run (refs store0 !! 1%positive) as Hf.
  run (Firebase_String (world := timing_out) 1%positive store0) as Hs.
  unfold returns.
  rewrite (doRequest_transport_error (world := timing_out)
             _ _ None "GET" "" _ _ _ _ header_timeout
             Hf Hs eq_refl eq_refl).
  reflexivity.
Defined.

(** ** [MustValueC] *)

Section MustValue.

Context {world : External}.

Lemma classify_not_missing (err : transport_error) :
  classify err ≠ ErrValueMissing.
Proof. rewrite classify_timed_out. by destruct (timed_out err). Qed.

(** [doRequest] never makes the missing-value error itself. *)
Lemma doRequest_not_missing fb ctx method body σ r σ1 :
  doRequest fb ctx method body σ = Done r σ1 → r ≠ Err ErrValueMissing.
Proof.
  destruct (refs σ !! fb) as [f|] eqn:Hf.
  - pose proof (String_run fb f σ Hf) as Hs. simpl in Hs.
    erewrite doRequest_rendered; [|exact Hs|done].
    destruct (http_NewRequest _ _ _) as [req|msg]; [|by intros [= <- _]].
    simpl. intros [= <- _].
    destruct (client_Do _ _ _) as [resp|err].
    + destruct (ReadAll resp); [|done]. by destruct (negb _).
    + intros [= E]. by apply classify_not_missing in E.
  - unfold doRequest, Firebase_String.
    rewrite (bind_Panic _ _ _ "invalid memory address or nil pointer dereference");
      [done|].
    apply bind_Panic. unfold get_ref. by rewrite Hf.
Qed.

(** [doRequest] leaves every Reference as it was. *)
Lemma doRequest_refs fb ctx method body σ r σ1 :
  doRequest fb ctx method body σ = Done r σ1 → refs σ1 = refs σ.
Proof.
  destruct (refs σ !! fb) as [f|] eqn:Hf.
  - pose proof (String_run fb f σ Hf) as Hs. simpl in Hs.
    erewrite doRequest_rendered; [|exact Hs|done].
    destruct (http_NewRequest _ _ _) as [req|msg]; simpl;
      by intros [= _ <-].
  - unfold doRequest, Firebase_String.
    rewrite (bind_Panic _ _ _ "invalid memory address or nil pointer dereference");
      [done|].
    apply bind_Panic. unfold get_ref. by rewrite Hf.
Qed.

Lemma missing_length (bytes : string) :
  bool_decide (String.length bytes = 0) || bool_decide (bytes = "null"%string)
  = missing bytes.
Proof. unfold missing. by destruct bytes. Qed.

End MustValue.

(** C6: after a [GET] round trip, [MustValueC] returns [ErrValueMissing]
    exactly when the round trip succeeded with a body that is empty or the
    text [null], and then the deserializer has not been called; any other
    successful body, such as [{"x":1}], is handed to the deserializer, whose
    answer is returned. *)
Theorem MustValueC_missing {world : External} fb ctx σ r σ1 :
  doRequest fb ctx "GET" "" σ = Done r σ1 →
  ∃ out σ2,
    MustValueC fb ctx σ = Done out σ2
    ∧ (out = Err ErrValueMissing ↔ ∃ bytes, r = Ok bytes ∧ missing bytes = true)
    ∧ (out = Err ErrValueMissing → σ2 = σ1)
    ∧ (∀ bytes, r = Ok bytes → missing bytes = false →
         σ2 = log σ1 (EvUnmarshal bytes)
         ∧ out = match json_Unmarshal bytes with
                 | inl v => Ok v
                 | inr msg => Err (ErrJSON msg)
                 end)
    ∧ missing "" = true ∧ missing "null" = true ∧ missing json_x1 = false.
Proof.
  intros Hd. pose proof (doRequest_not_missing _ _ _ _ _ _ _ Hd) as Hnm.
  unfold MustValueC. rewrite (bind_Done _ _ _ _ _ Hd).
  destruct r as [bytes|e].
  - rewrite missing_length. destruct (missing bytes) eqn:Hm.
    + eexists _, _. split; [done|]. split_and!; try done.
      * split; [eauto|done].
      * intros b [= <-]. congruence.
    + eexists _, _. split; [done|]. unfold mbind, M_bind, external; simpl.
      split_and!; try done.
      * split; [by destruct (json_Unmarshal bytes)|].
        intros (b & [= <-] & Hb). congruence.
      * by destruct (json_Unmarshal bytes).
      * by intros b [= <-] _.
  - eexists _, _. split; [done|]. split_and!; try done.
    split; [intros [= ->]; by destruct Hnm|by intros (b & Hb & _)].
Qed.

Lemma MustValueC_missing_witness :
  ∃ r σ1,
    doRequest (world := answering 200 json_x1) 1%positive None "GET" "" store0
    = Done r σ1
    ∧ r = Ok json_x1
    ∧ returns (MustValueC (world := answering 200 json_x1) 1%positive None)
        store0 = Some (Ok json_x1).
Proof.
  run (doRequest (world := answering 200 json_x1) 1%positive None "GET" ""
         store0) as Hd.
  eexists _, _. split; [exact Hd|]. split; [reflexivity|].
  destruct (MustValueC_missing (world := answering 200 json_x1)
              _ _ _ _ _ Hd) as (out & σ2 & Hm & _ & _ & Hdec & _).
  unfold returns. rewrite Hm.
  destruct (Hdec _ eq_refl eq_refl) as [_ ->]. reflexivity.
Defined.

(** ** [PushC] *)

Section Push.

Context {world : External}.

(** The Reference that a successful [PushC] returns: its path and its
    client are as specified, but its query map and its channel are nil. *)
Lemma PushC_result fb f ctx v σ c σ2 :
  refs σ !! fb = Some f →
  PushC fb ctx v σ = Done (Ok c) σ2 →
  ∃ bytes body σ1 m,
    json_Marshal v = inl bytes
    ∧ doRequest fb ctx "POST" bytes σ = Done (Ok body) σ1
    ∧ json_Unmarshal_map body = inl m
    ∧ refs σ2 !! c
      = Some (mkFirebase (url f +:+ "/" +:+ default "" (m !! "name"))
                None (client f) None false None).
Proof.
  intros Hf. unfold PushC.
  destruct (json_Marshal v) as [bytes|msg]; [|done].
  destruct (doRequest fb ctx "POST" bytes σ) as [r σ1|msg] eqn:Hd;
    [|by rewrite (bind_Panic _ _ _ _ Hd)].
  rewrite (bind_Done _ _ _ _ _ Hd). destruct r as [body|e]; [|done].
  assert (refs σ1 !! fb = Some f) as Hf1
    by (by rewrite (doRequest_refs _ _ _ _ _ _ _ Hd)).
  unfold mbind, M_bind, external. simpl.
  destruct (json_Unmarshal_map body) as [m|msg] eqn:Hm; [|done].
  unfold get_ref. simpl. rewrite Hf1. unfold new_ref. simpl.
  intros [= <- <-]. exists bytes, body, σ1, m. split_and!; try done.
  simpl. by rewrite lookup_insert_eq.
Qed.

(** [fb.params.Set] on a nil map. *)
Lemma Auth_nil_params fb f token σ :
  refs σ !! fb = Some f → params f = None →
  Auth fb token σ = Panic "assignment to entry in nil map".
Proof.
  intros Hf Hp. unfold Auth.
  rewrite (bind_Done _ _ _ _ _ (get_ref_Done _ _ _ Hf)).
  unfold update_map. by rewrite Hp.
Qed.

(** [Auth] cannot be used on the Reference that [PushC] returns. *)
Lemma PushC_Auth_panics fb f ctx v σ c σ2 token :
  refs σ !! fb = Some f →
  PushC fb ctx v σ = Done (Ok c) σ2 →
  Auth c token σ2 = Panic "assignment to entry in nil map".
Proof.
  intros Hf Hp.
  destruct (PushC_result _ _ _ _ _ _ _ Hf Hp) as (?&?&?&?&_&_&_&Hc).
  by eapply Auth_nil_params.
Qed.

End Push.

(** C3: the Reference returned by a successful [Push] has the path of the
    parent followed by a slash and the generated key, and the client of the
    parent; but its query map is nil, not a fresh empty map, and its
    channel is nil: [Auth] on it panics, while [Auth] on a Reference made
    by [New] does not. *)
Theorem Push_then_Auth_panics :
  returns
    (fb ← New "example.com" None;
     r ← Push (world := answering 200 "-Kabc") fb "v";
     match r with
     | Ok c => f ← get_ref c; mret (Some f)
     | Err _ => mret None
     end) empty_store
  = Some (Some (mkFirebase "https://example.com/-Kabc" None 1%positive None
                  false None))
  ∧ (fb ← New "example.com" None;
     r ← Push (world := answering 200 "-Kabc") fb "v";
     match r with
     | Ok c => Auth c "token"
     | Err _ => mret ()
     end) empty_store
    = Panic "assignment to entry in nil map"
  ∧ returns (fb ← New "example.com" None; Auth fb "token") empty_store
    = Some ().
Proof. split_and!; vm_compute; reflexivity. Qed.

(** ** [Auth] and [Unauth] *)

Section Auth.

(** [Auth] then [Unauth] on an allocated query map: the [auth] entry is
    gone, whatever it was before. *)
Lemma Auth_Unauth_run fb f l v token σ :
  refs σ !! fb = Some f → params f = Some l → maps σ !! l = Some v →
  (Auth fb token;; Unauth fb) σ
  = Done () (mkStore (refs σ) (<[l := delete authParam v]> (maps σ))
               (chans σ) (clients σ) (trace σ)).
Proof.
  intros Hf Hp Hl. unfold Auth, Unauth.
  unfold mbind, M_bind, get_ref, update_map, delete_map. rewrite Hf, Hp. simpl.
  rewrite Hf, Hp. unfold update_map. simpl.
  rewrite Hl, lookup_insert_eq, insert_insert_eq. simpl.
  unfold _url.Values_Del, _url.Values_Set. by rewrite delete_insert_eq.
Qed.

End Auth.

(** C8 (as stated): on a Reference whose query map already holds a token,
    [Auth] then [Unauth] leaves no [auth] entry, which is not the state
    before the [Auth] call. *)
Lemma Auth_Unauth_drops_previous_token :
  query_map 1%positive store_auth_old = {[ "auth"%string := ["old"%string] ]}
  ∧ query_map 1%positive
      <$> leaves (Auth 1%positive "t";; Unauth 1%positive) store_auth_old
    = Some ∅
  ∧ query_map 1%positive
      <$> leaves (Auth 1%positive "t";; Unauth 1%positive) store_auth_old
    ≠ Some (query_map 1%positive store_auth_old).
Proof. split_and!; [vm_compute; reflexivity..|]. vm_compute. done. Qed.

(** C8 (amended): on a Reference whose query map holds no [auth] entry,
    [Auth] then [Unauth] gives back the store, and with it the query map,
    exactly as it was before the [Auth] call. *)
Theorem Auth_Unauth_restores fb f l v token σ :
  refs σ !! fb = Some f → params f = Some l → maps σ !! l = Some v →
  v !! authParam = None →
  (Auth fb token;; Unauth fb) σ = Done () σ
  ∧ ∀ σ', leaves (Auth fb token;; Unauth fb) σ = Some σ' →
          query_map fb σ' = query_map fb σ.
Proof.
  intros Hf Hp Hl Hv.
  assert ((Auth fb token;; Unauth fb) σ = Done () σ) as E.
  { rewrite (Auth_Unauth_run _ _ _ _ _ _ Hf Hp Hl).
    rewrite delete_id, insert_id by done. by destruct σ. }
  split; [done|]. unfold leaves. rewrite E. by intros σ' [= <-].
Qed.

Lemma Auth_Unauth_restores_witness :
  (Auth 1%positive "token";; Unauth 1%positive) store0 = Done () store0.
Proof.
  run (refs store0 !! 1%positive) as Hf.
  run (maps store0 !! 1%positive) as Hl.
  exact (proj1 (Auth_Unauth_restores 1%positive _ 1%positive _ "token" store0
                  Hf eq_refl Hl eq_refl)).
Defined.

(** ** Redirects *)

(** C7: when the policy lets a redirect be followed, the request that is
    about to be sent carries every header of the first request of the
    chain, with the values of the first request. *)
Theorem redirectPreserveHeaders_copies req via first :
  via !! 0 = Some first →
  (redirectPreserveHeaders req via).2 = None →
  (∀ key val, Header first !! key = Some val →
              Header (redirectPreserveHeaders req via).1 !! key = Some val)
  ∧ (∀ key, Header first !! key = None →
            Header (redirectPreserveHeaders req via).1 !! key
            = Header req !! key).
Proof.
  intros Hvia Herr. destruct via as [|first' rest]; [done|].
  injection Hvia as ->. unfold redirectPreserveHeaders in *.
  destruct (defaultRedirectLimit <? _)%Z; [done|]. simpl.
  split.
  - intros key val Hk. rewrite map_fold_insert_lookup.
    by apply lookup_union_Some_l.
  - intros key Hk. rewrite map_fold_insert_lookup.
    by rewrite lookup_union_r.
Qed.

Lemma redirectPreserveHeaders_copies_witness :
  Header (redirectPreserveHeaders second_request [first_request]).1
    !! "Authorization"%string = Some ["Bearer t"%string]
  ∧ Header (redirectPreserveHeaders second_request [first_request]).1
      !! "X-Firebase"%string = Some ["a"%string]
  ∧ Header (redirectPreserveHeaders second_request [first_request]).1
      !! "Referer"%string = Some ["https://example.com/.json"%string].
Proof.
  destruct (redirectPreserveHeaders_copies second_request [first_request]
              first_request eq_refl eq_refl) as [Hcopy Hkeep].
  split_and!.
  - apply Hcopy. reflexivity.
  - apply Hcopy. reflexivity.
  - rewrite Hkeep; reflexivity.
Defined.

(** A chain within the limit is followed. *)
Lemma redirectPreserveHeaders_follows req via :
  (Z.of_nat (length via) ≤ defaultRedirectLimit)%Z →
  (redirectPreserveHeaders req via).2 = None.
Proof.
  intros Hlen. destruct via as [|first rest]; [done|].
  unfold redirectPreserveHeaders.
  by rewrite (proj2 (Z.ltb_ge _ _) Hlen).
Qed.

(** A chain longer than the limit is not followed, and nothing is
    copied. *)
Lemma redirectPreserveHeaders_limit req via :
  (defaultRedirectLimit < Z.of_nat (length via))%Z →
  ∃ msg, redirectPreserveHeaders req via = (req, Some msg).
Proof.
  intros Hlen. destruct via as [|first rest]; [simpl in Hlen; unfold defaultRedirectLimit in Hlen; lia|].
  unfold redirectPreserveHeaders.
  rewrite (proj2 (Z.ltb_lt _ _) Hlen). eauto.
Qed.

(** ** Derivation *)

Section derivation.

(** [New] allocates its client (when none is given), its query map, its
    channel and the Reference. *)
Lemma New_run u client σ :
  ∃ c p ch,
    New u client σ
    = Done (fresh (dom (refs σ)))
        (mkStore
           (<[fresh (dom (refs σ)) :=
                mkFirebase (sanitizeURL u) (Some p) c None false (Some ch)]>
              (refs σ))
           (<[p := ∅]> (maps σ)) ({[ch]} ∪ chans σ)
           (match client with
            | Some _ => clients σ
            | None => <[c := mkClient true true]> (clients σ)
            end)
           (trace σ))
    ∧ p = fresh (dom (maps σ)).
Proof. destruct client as [c|]; eexists _, _, _; split; reflexivity. Qed.

(** [copy] on an allocated Reference whose map is allocated. *)
Lemma copy_run fb f σ :
  refs σ !! fb = Some f →
  (∀ l, params f = Some l → is_Some (maps σ !! l)) →
  copy fb σ
  = Done (fresh (dom (refs σ)))
      (mkStore
         (<[fresh (dom (refs σ)) :=
              mkFirebase (url f)
                (Some (fresh (dom (maps σ)))) (client f) (tokenSrc f) false
                (Some (fresh (chans σ)))]>
            (refs σ))
         (<[fresh (dom (maps σ)) := params_of σ f]> (maps σ))
         ({[fresh (chans σ)]} ∪ chans σ) (clients σ) (trace σ)).
Proof.
  intros Hf Hwf. unfold copy.
  rewrite (bind_Done _ _ _ _ _ (get_ref_Done _ _ _ Hf)).
  unfold mbind, M_bind, mret, M_ret, new_map, new_chan, new_ref,
    read_map, update_map, params_of. simpl.
  destruct (params f) as [l|] eqn:Hp; simpl.
  - rewrite lookup_insert_eq, insert_insert_eq. simpl.
    rewrite lookup_insert_ne by (symmetry; by apply fresh_map_ne, Hwf).
    by rewrite map_fold_insert_empty.
  - rewrite lookup_insert_eq, insert_insert_eq. simpl.
    by rewrite map_fold_insert_empty.
Qed.

(** [Child] on an allocated Reference whose map is allocated. *)
Lemma Child_run fb f name σ :
  refs σ !! fb = Some f →
  (∀ l, params f = Some l → is_Some (maps σ !! l)) →
  Child fb name σ
  = Done (fresh (dom (refs σ)))
      (mkStore
         (<[fresh (dom (refs σ)) :=
              mkFirebase (url f +:+ "/" +:+ name)
                (Some (fresh (dom (maps σ)))) (client f) (tokenSrc f) false
                (Some (fresh (chans σ)))]>
            (refs σ))
         (<[fresh (dom (maps σ)) := params_of σ f]> (maps σ))
         ({[fresh (chans σ)]} ∪ chans σ) (clients σ) (trace σ)).
Proof.
  intros Hf Hwf. unfold Child.
  rewrite (bind_Done _ _ _ _ _ (copy_run _ _ _ Hf Hwf)).
  unfold mbind, M_bind, mret, M_ret, get_ref, set_ref. simpl.
  rewrite lookup_insert_eq. simpl. by rewrite insert_insert_eq.
Qed.

(** Appending a child name keeps the scheme. *)
Lemma hasScheme_child (path name : string) :
  hasScheme path = true → hasScheme (path +:+ "/" +:+ name) = true.
Proof.
  unfold hasScheme. rewrite !orb_true_iff.
  intros [Hp|Hp]; [left|right]; by apply HasPrefix_app_l.
Qed.

(** Appending a plain child name leaves no slash at the end. *)
Lemma HasSuffix_child (path name : string) :
  plain_name name → strings.HasSuffix (path +:+ "/" +:+ name) "/" = false.
Proof.
  intros [Hne Hs]. rewrite <-app_assoc.
  rewrite HasSuffix_app_r; [done|]. destruct name; [done|]. simpl. lia.
Qed.

Lemma wf_New u client σ fb σ' :
  wf σ → New u client σ = Done fb σ' → wf σ'.
Proof.
  intros Hwf. destruct (New_run u client σ) as (c & p & ch & -> & ->).
  intros [= <- <-]. intros fb f l. simpl.
  destruct (decide (fb = fresh (dom (refs σ)))) as [->|Hne].
  - rewrite lookup_insert_eq. intros [= <-] [= <-].
    rewrite lookup_insert_eq. eauto.
  - rewrite lookup_insert_ne by done. intros Hf Hp.
    destruct (Hwf _ _ _ Hf Hp) as [v Hv].
    rewrite lookup_insert_ne; [eauto|].
    symmetry. apply fresh_map_ne. eauto.
Qed.

Lemma wf_Child fb f name σ c σ' :
  wf σ → refs σ !! fb = Some f → Child fb name σ = Done c σ' → wf σ'.
Proof.
  intros Hwf Hf. rewrite (Child_run _ _ _ _ Hf) by eauto.
  intros [= <- <-]. intros fb' f' l. simpl.
  destruct (decide (fb' = fresh (dom (refs σ)))) as [->|Hne].
  - rewrite lookup_insert_eq. intros [= <-] [= <-].
    rewrite lookup_insert_eq. eauto.
  - rewrite lookup_insert_ne by done. intros Hf' Hp.
    destruct (Hwf _ _ _ Hf' Hp) as [v Hv].
    rewrite lookup_insert_ne; [eauto|].
    symmetry. apply fresh_map_ne. eauto.
Qed.

(** A chain of derivations appends the child names, one slash before
    each. *)
Lemma Children_run names : ∀ fb f σ,
  wf σ → refs σ !! fb = Some f →
  ∃ c σ' f',
    Children fb names σ = Done c σ'
    ∧ wf σ'
    ∧ refs σ' !! c = Some f'
    ∧ url f' = foldl (λ path name, path +:+ "/" +:+ name) (url f) names.
Proof.
  induction names as [|name names IH]; intros fb f σ Hwf Hf.
  - exists fb, σ, f. done.
  - simpl. pose proof (Child_run fb f name σ Hf ltac:(eauto)) as Hc.
    pose proof (wf_Child _ _ _ _ _ _ Hwf Hf Hc) as Hwf'.
    rewrite (bind_Done _ _ _ _ _ Hc).
    edestruct (IH (fresh (dom (refs σ)))) as (c & σ' & f' & Hr & ? & ? & Hu);
      [exact Hwf'|simpl; apply lookup_insert_eq|].
    exists c, σ', f'. by rewrite Hr, Hu.
Qed.

Lemma child_paths_normalized names : ∀ path,
  normalized path → Forall plain_name names →
  normalized (foldl (λ path name, path +:+ "/" +:+ name) path names).
Proof.
  induction names as [|name names IH]; intros path Hn Hall; [done|].
  inversion Hall as [|? ? Hname Hnames]; subst. simpl. apply IH; [|done].
  destruct Hn as [Hs _]. split.
  - by apply hasScheme_child.
  - by apply HasSuffix_child.
Qed.

Lemma wf_empty : wf empty_store.
Proof. intros fb f l Hf. simpl in Hf. by rewrite lookup_empty in Hf. Qed.

End derivation.

(** C9 (as stated): the path of [New("example.com")] followed by
    [Child("")] ends with a slash, and the path of [New("")] has lost
    its scheme. *)
Lemma Child_empty_name_trailing_slash :
  returns (fb ← New "example.com" None; c ← Child fb ""; f ← get_ref c;
           mret (url f)) empty_store
  = Some "https://example.com/"%string
  ∧ ¬ normalized "https://example.com/"
  ∧ returns (fb ← New "" None; f ← get_ref fb; mret (url f)) empty_store
    = Some "https:/"%string
  ∧ ¬ normalized "https:/".
Proof.
  split_and!; [vm_compute; reflexivity| |vm_compute; reflexivity|].
  - intros [_ Hs]. vm_compute in Hs. done.
  - intros [Hs _]. vm_compute in Hs. done.
Qed.

(** C9 (amended): when the scheme-defaulted input of [New] does not end
    with two slashes, and every child name is non-empty and does not end
    with a slash, the path of the Reference reached by [New] and any chain
    of [Child] derivations begins with [http://] or [https://] and does
    not end with a slash. *)
Theorem derived_path_normalized u client names σ :
  wf σ →
  strings.HasSuffix (withScheme u) "//" = false →
  Forall plain_name names →
  ∃ fb σ1 c σ2,
    New u client σ = Done fb σ1
    ∧ Children fb names σ1 = Done c σ2
    ∧ path_of c σ2
      = foldl (λ path name, path +:+ "/" +:+ name) (sanitizeURL u) names
    ∧ hasScheme (path_of c σ2) = true
    ∧ strings.HasSuffix (path_of c σ2) "/" = false.
Proof.
  intros Hwf Hu Hnames.
  destruct (New_run u client σ) as (cl & p & ch & Hnew & Hp).
  pose proof (wf_New _ _ _ _ _ Hwf Hnew) as Hwf1.
  edestruct (Children_run names (fresh (dom (refs σ))))
    as (c & σ2 & f' & Hc & _ & Hf' & Hurl);
    [exact Hwf1|simpl; apply lookup_insert_eq|].
  eexists _, _, c, σ2. split; [exact Hnew|]. split; [exact Hc|].
  unfold path_of. rewrite Hf', Hurl. simpl. split; [done|].
  apply child_paths_normalized; [|done]. by apply sanitizeURL_normalizes.
Qed.

Lemma derived_path_normalized_witness :
  ∃ fb σ1 c σ2,
    New "https://example.com/a/" None empty_store = Done fb σ1
    ∧ Children fb ["b"%string; "c"%string] σ1 = Done c σ2
    ∧ path_of c σ2 = "https://example.com/a/b/c"%string.
Proof.
  destruct (derived_path_normalized "https://example.com/a/" None
              ["b"%string; "c"%string] empty_store)
    as (fb & σ1 & c & σ2 & Hn & Hc & Hp & _).
  - exact wf_empty.
  - reflexivity.
  - repeat constructor; done.
  - exists fb, σ1, c, σ2. split; [exact Hn|]. split; [exact Hc|].
    rewrite Hp. reflexivity.
Defined.

(** ** The canonical encoding of a query map

    [ParseQuery] reads back what [Encode] wrote; this is what makes the
    copy of the query map in [String] a copy. *)

Section encoding.

Import _url.

(** What one byte is escaped to. *)
Lemma QueryEscape_cons (c : ascii) (s : string) :
  QueryEscape (String c s) = QueryEscape (String c "") +:+ QueryEscape s.
Proof.
  simpl. destruct (bool_decide (c = " "%char)); [done|].
  by destruct (shouldEscape c).
Qed.

Lemma QueryUnescape_escape_byte (c : ascii) (t : string) :
  QueryUnescape (QueryEscape (String c "") +:+ t) = String c <$> QueryUnescape t.
Proof.
  destruct c as [[] [] [] [] [] [] [] []]; reflexivity.
Qed.

Lemma QueryUnescape_QueryEscape_app (s t : string) :
  QueryUnescape (QueryEscape s +:+ t) = (λ s', s +:+ s') <$> QueryUnescape t.
Proof.
  induction s as [|c s IH].
  - simpl. rewrite app_nil_l. by destruct (QueryUnescape t).
  - rewrite QueryEscape_cons, app_assoc, QueryUnescape_escape_byte, IH.
    by destruct (QueryUnescape t).
Qed.

Lemma QueryUnescape_QueryEscape (s : string) :
  QueryUnescape (QueryEscape s) = Some s.
Proof.
  rewrite <-(app_empty_r (QueryEscape s)), QueryUnescape_QueryEscape_app.
  simpl. by rewrite app_empty_r.
Qed.

Lemma Contains_app (s t : string) (c : ascii) :
  Contains (s +:+ t) c = Contains s c || Contains t c.
Proof.
  induction s as [|d s IH]; [done|].
  rewrite app_cons. simpl. rewrite IH. by rewrite orb_assoc.
Qed.

Lemma Contains_escape_byte (c d : ascii) :
  d = "&"%char ∨ d = ";"%char ∨ d = "="%char →
  Contains (QueryEscape (String c "")) d = false.
Proof.
  intros [->|[->| ->]]; destruct c as [[] [] [] [] [] [] [] []]; reflexivity.
Qed.

Lemma Contains_QueryEscape (s : string) (d : ascii) :
  d = "&"%char ∨ d = ";"%char ∨ d = "="%char →
  Contains (QueryEscape s) d = false.
Proof.
  intros Hd. induction s as [|c s IH]; [done|].
  rewrite QueryEscape_cons, Contains_app, IH, Contains_escape_byte; done.
Qed.

Lemma Cut_absent (s : string) (c : ascii) :
  Contains s c = false → Cut s c = (s, EmptyString, false).
Proof.
  induction s as [|d s IH]; [done|]. simpl.
  destruct (bool_decide (d = c)); [done|]. simpl. intros Hs.
  by rewrite IH.
Qed.

Lemma Cut_first (s r : string) (c : ascii) :
  Contains s c = false → Cut (s +:+ String c r) c = (s, r, true).
Proof.
  induction s as [|d s IH].
  - intros _. rewrite app_nil_l. simpl. by rewrite bool_decide_eq_true_2.
  - rewrite app_cons. simpl.
    destruct (bool_decide (d = c)); [done|]. simpl. intros Hs.
    by rewrite IH.
Qed.

(** The buffer of [Encode] holds the segments written so far, joined by
    ampersands. *)
Lemma foldl_append_segment (segs : list string) : ∀ buf,
  Forall (λ seg, seg ≠ EmptyString) segs →
  foldl append_segment buf segs =
    match segs with
    | [] => buf
    | _ => (if bool_decide (0 < String.length buf) then buf +:+ "&" else buf)
           +:+ String.concat "&" segs
    end.
Proof.
  induction segs as [|seg segs IH]; intros buf Hne; [done|].
  inversion Hne as [|? ? Hseg Hsegs]; subst. simpl foldl.
  rewrite IH by done. destruct segs as [|seg' segs]; [done|].
  unfold append_segment at 2.
  assert (0 < String.length (append_segment buf seg)) as Hlen.
  { unfold append_segment. rewrite length_app. destruct seg; [done|].
    simpl. lia. }
  rewrite bool_decide_eq_true_2 by done.
  unfold append_segment. cbn [String.concat]. by rewrite !app_assoc.
Qed.

Lemma Encode_loop (v : Values) (keys : list string) : ∀ buf,
  foldl
    (λ buf k,
       foldl
         (λ buf x,
            (if bool_decide (0 < String.length buf) then buf +:+ "&"
             else buf)
            +:+ QueryEscape k +:+ "=" +:+ QueryEscape x)
         buf (default [] (v !! k)))
    buf keys
  = foldl append_segment buf
      (encodePair <$> (k ← keys; (λ x, (k, x)) <$> default [] (v !! k))).
Proof.
  induction keys as [|k keys IH]; intros buf; [done|].
  cbn [foldl mbind list_bind]. rewrite IH. unfold mbind.
  rewrite fmap_app, foldl_app. f_equal.
  generalize (default [] (v !! k)) buf. clear.
  intros vs. induction vs as [|x vs IH]; intros buf; [done|].
  simpl. by rewrite IH.
Qed.

Lemma Encode_pairs (v : Values) :
  Values_Encode v = foldl append_segment EmptyString (encodePair <$> pairs v).
Proof. apply Encode_loop. Qed.

Lemma encodePair_nonempty (p : string * string) : encodePair p ≠ EmptyString.
Proof.
  unfold encodePair. intros E. apply (f_equal String.length) in E.
  rewrite !length_app in E. simpl in E. lia.
Qed.

Lemma Values_Encode_concat (v : Values) :
  Values_Encode v = String.concat "&" (encodePair <$> pairs v).
Proof.
  rewrite Encode_pairs, foldl_append_segment.
  - by destruct (encodePair <$> pairs v).
  - apply Forall_fmap, Forall_forall. intros p _. apply encodePair_nonempty.
Qed.

Lemma concat_cons2 (sep seg seg' : string) (segs : list string) :
  String.concat sep (seg :: seg' :: segs)
  = seg +:+ sep +:+ String.concat sep (seg' :: segs).
Proof. done. Qed.

Lemma length_concat_cons (seg seg' : string) (segs : list string) :
  String.length (String.concat "&" (seg :: seg' :: segs))
  = String.length seg + 1 + String.length (String.concat "&" (seg' :: segs)).
Proof. rewrite concat_cons2, !length_app. simpl. lia. Qed.

(** The loop of [parseQuery] visits the segments of a joined string in
    order. *)
Lemma parseQuery_loop_concat (segs : list string) : ∀ fuel acc,
  Forall segment_ok segs →
  String.length (String.concat "&" segs) ≤ fuel →
  parseQuery_loop fuel (String.concat "&" segs) acc
  = foldl parseQuery_step acc segs.
Proof.
  induction segs as [|seg segs IH]; intros fuel acc Hok Hfuel.
  - by destruct fuel.
  - inversion Hok as [|? ? [Hne Hamp] Hsegs]; subst.
    destruct segs as [|seg' segs].
    + simpl in *. destruct fuel as [|fuel];
        [destruct seg; [done|simpl in Hfuel; lia]|].
      simpl. rewrite bool_decide_eq_false_2 by done.
      rewrite Cut_absent by done. by destruct fuel.
    + rewrite length_concat_cons in Hfuel.
      destruct fuel as [|fuel]; [lia|].
      rewrite concat_cons2. cbn [parseQuery_loop].
      rewrite bool_decide_eq_false_2 by (by destruct seg).
      change ("&" +:+ String.concat "&" (seg' :: segs))
        with (String "&" (String.concat "&" (seg' :: segs))).
      rewrite Cut_first by done. simpl foldl. apply IH; [done|lia].
Qed.

Lemma encodePair_ok (p : string * string) : segment_ok (encodePair p).
Proof.
  split; [apply encodePair_nonempty|]. unfold encodePair.
  rewrite !Contains_app, !Contains_QueryEscape; auto.
Qed.

(** One turn of the loop of [parseQuery] on a pair written by [Encode]. *)
Lemma parseQuery_step_encodePair (m : Values) (err : bool) (p : string * string) :
  parseQuery_step (m, err) (encodePair p) = (Values_Add m p.1 p.2, err).
Proof.
  unfold parseQuery_step.
  assert (Contains (encodePair p) ";" = false) as ->.
  { unfold encodePair. rewrite !Contains_app, !Contains_QueryEscape; auto. }
  rewrite bool_decide_eq_false_2 by apply encodePair_nonempty.
  unfold encodePair.
  change ("=" +:+ QueryEscape p.2) with (String "=" (QueryEscape p.2)).
  rewrite Cut_first by (apply Contains_QueryEscape; auto).
  by rewrite !QueryUnescape_QueryEscape.
Qed.

Lemma foldl_parseQuery_step (ps : list (string * string)) : ∀ m err,
  foldl parseQuery_step (m, err) (encodePair <$> ps)
  = (foldl (λ m p, Values_Add m p.1 p.2) m ps, err).
Proof.
  induction ps as [|p ps IH]; intros m err; [done|].
  rewrite fmap_cons. cbn [foldl]. by rewrite parseQuery_step_encodePair, IH.
Qed.

(** Parsing what [Encode] wrote adds the pairs back, in order, and finds
    no error. *)
Lemma ParseQuery_Encode_pairs (v : Values) :
  ParseQuery (Values_Encode v)
  = (foldl (λ m p, Values_Add m p.1 p.2) ∅ (pairs v), false).
Proof.
  unfold ParseQuery. rewrite Values_Encode_concat.
  rewrite parseQuery_loop_concat; [apply foldl_parseQuery_step| |done].
  apply Forall_fmap, Forall_forall. intros p _. apply encodePair_ok.
Qed.

Lemma lookup_foldl_Add (ps : list (string * string)) : ∀ (m : Values) k,
  foldl (λ m p, Values_Add m p.1 p.2) m ps !! k
  = match (filter (λ p, p.1 = k) ps).*2 with
    | [] => m !! k
    | vs => Some (default [] (m !! k) ++ vs)
    end.
Proof.
  induction ps as [|p ps IH]; intros m k; [done|].
  cbn [foldl]. rewrite IH. clear IH. unfold Values_Add.
  destruct (decide (p.1 = k)) as [<-|Hne].
  - rewrite filter_cons_True by done. rewrite fmap_cons, !lookup_insert_eq.
    destruct ((filter (λ p0, p0.1 = p.1) ps).*2) as [|x vs]; simpl; [done|].
    by rewrite <-(assoc_L (++)).
  - rewrite filter_cons_False by done. by rewrite !lookup_insert_ne.
Qed.

Lemma filter_pairs_key (k k' : string) (vs : list string) :
  (filter (λ p : string * string, p.1 = k) ((λ x, (k', x)) <$> vs)).*2
  = if decide (k' = k) then vs else [].
Proof.
  induction vs as [|x vs IH]; [by destruct (decide _)|].
  rewrite fmap_cons. destruct (decide (k' = k)) as [->|Hne].
  - rewrite filter_cons_True by done. rewrite fmap_cons. by rewrite IH.
  - by rewrite filter_cons_False.
Qed.

(** The values written for one key. *)
Lemma values_of_key (f : string → list string) (keys : list string) k :
  NoDup keys →
  (filter (λ p : string * string, p.1 = k)
     (k' ← keys; (λ x, (k', x)) <$> f k')).*2
  = if decide (k ∈ keys) then f k else [].
Proof.
  induction keys as [|k' keys IH]; intros Hnd.
  - by rewrite decide_False by apply not_elem_of_nil.
  - inversion Hnd as [|? ? Hk' Hkeys]; subst.
    rewrite bind_cons, filter_app, fmap_app, filter_pairs_key, IH by done.
    destruct (decide (k' = k)) as [->|Hne].
    + rewrite decide_False by done. rewrite decide_True by apply list_elem_of_here.
      by rewrite (right_id_L [] (++)).
    + simpl. destruct (decide (k ∈ keys)) as [Hin|Hnin].
      * by rewrite decide_True by (by apply list_elem_of_further).
      * rewrite decide_False; [done|].
        intros [?|?]%elem_of_cons; congruence.
Qed.

Lemma elem_of_sortedKeys (v : Values) k :
  k ∈ sortedKeys v ↔ is_Some (v !! k).
Proof.
  unfold sortedKeys. rewrite merge_sort_Permutation, list_elem_of_fmap.
  split.
  - intros [[k' x] [-> Hx]]. apply elem_of_map_to_list in Hx. eauto.
  - intros [x Hx]. exists (k, x). split; [done|].
    by apply elem_of_map_to_list.
Qed.

Lemma NoDup_sortedKeys (v : Values) : NoDup (sortedKeys v).
Proof.
  unfold sortedKeys. rewrite merge_sort_Permutation.
  apply NoDup_fst_map_to_list.
Qed.

(** The pairs written by [Encode], added back to an empty map, give the
    entries that hold at least one value. *)
Lemma foldl_Add_pairs (v : Values) :
  foldl (λ m p, Values_Add m p.1 p.2) ∅ (pairs v) = nonempty v.
Proof.
  apply map_eq. intros k. rewrite lookup_foldl_Add. unfold pairs.
  rewrite (values_of_key (λ k, default [] (v !! k)))
    by apply NoDup_sortedKeys.
  unfold nonempty. rewrite lookup_empty.
  destruct (v !! k) as [vs|] eqn:Hk; simpl.
  - rewrite decide_True by (apply elem_of_sortedKeys; eauto).
    destruct vs as [|x vs].
    + symmetry. apply map_lookup_filter_None. right.
      intros vs' Hvs'. simpl. rewrite Hk in Hvs'. injection Hvs' as <-.
      by intros Hn.
    + symmetry. by apply map_lookup_filter_Some.
  - rewrite decide_False.
    + symmetry. apply map_lookup_filter_None. by left.
    + rewrite elem_of_sortedKeys, Hk. by intros [? ?].
Qed.

(** [ParseQuery] undoes [Encode], up to the entries without values. *)
Lemma ParseQuery_Encode (v : Values) :
  ParseQuery (Values_Encode v) = (nonempty v, false).
Proof. by rewrite ParseQuery_Encode_pairs, foldl_Add_pairs. Qed.

Lemma StronglySorted_filter {A} (R : relation A) (P : A → Prop)
    `{∀ x, Decision (P x)} (l : list A) :
  StronglySorted R l → StronglySorted R (filter P l).
Proof.
  induction 1 as [|x l Hl IH Hx]; [constructor|].
  destruct (decide (P x)).
  - rewrite filter_cons_True by done. constructor; [done|].
    apply Forall_forall. intros y [_ Hy]%list_elem_of_filter.
    by eapply Forall_forall in Hx.
  - by rewrite filter_cons_False.
Qed.

Lemma default_nonempty (v : Values) k :
  default [] (nonempty v !! k) = default [] (v !! k).
Proof.
  unfold nonempty. destruct (v !! k) as [[|x vs]|] eqn:Hk; simpl.
  - rewrite (proj2 (map_lookup_filter_None _ _ _)); [done|]. right.
    intros vs' Hvs'. rewrite Hk in Hvs'. injection Hvs' as <-. by intros Hn.
  - by rewrite (map_lookup_filter_Some_2 _ _ _ _ Hk).
  - rewrite (proj2 (map_lookup_filter_None _ _ _)); [done|]. by left.
Qed.

(** Sorting the keys that hold a value is the same as sorting all the
    keys and skipping those that hold none. *)
Lemma sortedKeys_nonempty (v : Values) :
  sortedKeys (nonempty v)
  = filter (λ k, default [] (v !! k) ≠ []) (sortedKeys v).
Proof.
  apply (Sorted_unique String.le).
  - apply Sorted_merge_sort, _.
  - apply StronglySorted_Sorted, StronglySorted_filter.
    apply StronglySorted_merge_sort; apply _.
  - apply NoDup_Permutation.
    + apply NoDup_sortedKeys.
    + apply NoDup_filter, NoDup_sortedKeys.
    + intros k. rewrite list_elem_of_filter, !elem_of_sortedKeys.
      unfold nonempty. split.
      * intros [vs [Hvs Hne]%map_lookup_filter_Some]. rewrite Hvs. eauto.
      * intros [Hne [vs Hvs]]. exists vs. apply map_lookup_filter_Some.
        by rewrite Hvs in Hne.
Qed.

Lemma pairs_nonempty (v : Values) : pairs (nonempty v) = pairs v.
Proof.
  unfold pairs. rewrite sortedKeys_nonempty.
  induction (sortedKeys v) as [|k keys IH]; [done|].
  rewrite bind_cons, <-IH. destruct (decide (default [] (v !! k) ≠ [])) as [Hk|Hk].
  - rewrite filter_cons_True by done. by rewrite bind_cons, default_nonempty.
  - rewrite filter_cons_False by done.
    destruct (default [] (v !! k)); [done|]. by destruct Hk.
Qed.

(** The entries without values do not show in the encoding. *)
Lemma Values_Encode_nonempty (v : Values) :
  Values_Encode (nonempty v) = Values_Encode v.
Proof. by rewrite !Values_Encode_concat, pairs_nonempty. Qed.

(** [len(paramsCopy) > 0] holds exactly when the encoding is not empty. *)
Lemma size_nonempty (v : Values) :
  bool_decide (0 < size (nonempty v))
  = negb (bool_decide (Values_Encode v = EmptyString)).
Proof.
  rewrite Values_Encode_concat.
  pose proof (foldl_Add_pairs v) as Hv.
  destruct (pairs v) as [|p ps] eqn:Hp.
  - simpl in Hv. rewrite <-Hv, map_size_empty. done.
  - rewrite bool_decide_eq_true_2, bool_decide_eq_false_2; [done| |].
    + rewrite fmap_cons. intros E. apply (f_equal String.length) in E.
      pose proof (encodePair_nonempty p) as Hne.
      destruct (encodePair <$> ps).
      * simpl in E. by destruct (encodePair p).
      * rewrite concat_cons2, length_app in E. destruct (encodePair p); [done|].
        simpl in E. lia.
    + assert (is_Some (nonempty v !! p.1)) as [vs Hvs].
      { rewrite <-Hv, lookup_foldl_Add, filter_cons_True by done.
        rewrite fmap_cons. eauto. }
      destruct (decide (size (nonempty v) = 0)) as [E|E]; [|lia].
      apply map_size_empty_iff in E. by rewrite E, lookup_empty in Hvs.
Qed.

(** What [String] returns when no token is added. *)
Lemma render_no_token (path : string) (v : Values) :
  render path (paramsCopy_of v None)
  = (path +:+ "/.json")
    +:+ (if bool_decide (Values_Encode v = EmptyString) then EmptyString
         else "?" +:+ Values_Encode v).
Proof.
  unfold render, paramsCopy_of. rewrite ParseQuery_Encode. simpl.
  rewrite size_nonempty, Values_Encode_nonempty.
  destruct (bool_decide (Values_Encode v = EmptyString)); simpl; [|done].
  by rewrite app_empty_r.
Qed.

End encoding.

(** ** Rendering does not change the Reference *)

(** C10: any number of [String] calls on a Reference leaves every
    Reference, so also its token source, and every allocated query map as
    they were: the access token is added to the map that [String] has just
    parsed, never to the query map of the Reference. *)
Theorem String_leaves_Reference {world : External} n fb f σ :
  refs σ !! fb = Some f →
  (∀ l, params f = Some l → is_Some (maps σ !! l)) →
  ∃ ss σ',
    String_times n fb σ = Done ss σ'
    ∧ length ss = n
    ∧ refs σ' = refs σ
    ∧ (∀ l, is_Some (maps σ !! l) → maps σ' !! l = maps σ !! l)
    ∧ query_map fb σ' = query_map fb σ
    ∧ query_map fb σ' !! accessTokenParam
      = query_map fb σ !! accessTokenParam.
Proof.
  intros Hf Hl.
  assert (∃ ss σ',
    String_times n fb σ = Done ss σ'
    ∧ length ss = n
    ∧ refs σ' = refs σ
    ∧ (∀ l, is_Some (maps σ !! l) → maps σ' !! l = maps σ !! l))
    as (ss & σ' & Hrun & Hlen & Hrefs & Hmaps).
  { clear Hl. revert σ Hf. induction n as [|n IH]; intros σ Hf.
    - exists [], σ. done.
    - destruct (String_frame fb f σ Hf) as (s & σ1 & Hs & Hr1 & Hm1 & _).
      destruct (IH σ1) as (ss & σ' & Hss & Hlen & Hr & Hm);
        [by rewrite Hr1|].
      exists (s :: ss), σ'. simpl.
      rewrite (bind_Done _ _ _ _ _ Hs), (bind_Done _ _ _ _ _ Hss).
      split_and!; [done|simpl; by rewrite Hlen|congruence|].
      intros l Hsome. rewrite Hm, Hm1; [done..|]. by rewrite Hm1. }
  exists ss, σ'. split_and!; try done.
  - unfold query_map, params_of. rewrite Hrefs, Hf.
    destruct (params f) as [l|] eqn:Hp; [|done]. by rewrite Hmaps by eauto.
  - unfold query_map, params_of. rewrite Hrefs, Hf.
    destruct (params f) as [l|] eqn:Hp; [|done]. by rewrite Hmaps by eauto.
Qed.

Lemma String_leaves_Reference_witness :
  returns (String_times (world := tokened) 3 1%positive) store_tok
  = Some ["https://example.com/.json?access_token=tok"%string;
          "https://example.com/.json?access_token=tok"%string;
          "https://example.com/.json?access_token=tok"%string]
  ∧ query_map 1%positive
      <$> leaves (String_times (world := tokened) 3 1%positive) store_tok
    = Some ∅.
Proof.
  run (refs store_tok !! 1%positive) as Hf.
  destruct (String_leaves_Reference (world := tokened) 3 1%positive _
              store_tok Hf)
    as (ss & σ' & Hrun & _ & _ & _ & Hq & _).
  { intros l [= <-]. vm_compute. eauto. }
  unfold returns, leaves. rewrite Hrun. simpl. rewrite Hq. split.
  - run (String_times (world := tokened) 3 1%positive store_tok) as Hc.
    rewrite Hc in Hrun. by injection Hrun as <- _.
  - reflexivity.
Defined.

(** ** Copy on derive *)

Section copy_on_derive.

Context {world : External}.

(** One change to a Reference whose query map is allocated: it returns,
    and touches nothing but that Reference and that map. *)
Lemma mutate_frame r mu f l σ :
  refs σ !! r = Some f → params f = Some l → is_Some (maps σ !! l) →
  ∃ σ' f',
    mutate r mu σ = Done () σ'
    ∧ refs σ' !! r = Some f' ∧ params f' = Some l ∧ is_Some (maps σ' !! l)
    ∧ (∀ c, c ≠ r → refs σ' !! c = refs σ !! c)
    ∧ (∀ p, p ≠ l → maps σ' !! p = maps σ !! p)
    ∧ trace σ' = trace σ.
Proof.
  intros Hf Hp Hl. destruct mu as [token| |ts]; simpl.
  - unfold Auth. rewrite (bind_Done _ _ _ _ _ (get_ref_Done _ _ _ Hf)).
    unfold update_map. rewrite Hp. eexists _, f. split; [done|]. simpl.
    split_and!; try done.
    + rewrite lookup_insert_eq. eauto.
    + intros p Hne. by rewrite lookup_insert_ne.
  - unfold Unauth. rewrite (bind_Done _ _ _ _ _ (get_ref_Done _ _ _ Hf)).
    unfold delete_map, update_map. rewrite Hp. eexists _, f.
    split; [done|]. simpl. split_and!; try done.
    + rewrite lookup_insert_eq. eauto.
    + intros p Hne. by rewrite lookup_insert_ne.
  - unfold AccessToken. rewrite (bind_Done _ _ _ _ _ (get_ref_Done _ _ _ Hf)).
    unfold set_ref.
    eexists _, (mkFirebase (url f) (params f) (client f) ts (watching f)
                  (stopWatching f)).
    split; [done|]. simpl. split_and!; try done.
    + by rewrite lookup_insert_eq.
    + intros c Hne. by rewrite lookup_insert_ne.
Qed.

Lemma mutations_frame r mus : ∀ f l σ,
  refs σ !! r = Some f → params f = Some l → is_Some (maps σ !! l) →
  ∃ σ',
    mutations r mus σ = Done () σ'
    ∧ (∀ c, c ≠ r → refs σ' !! c = refs σ !! c)
    ∧ (∀ p, p ≠ l → maps σ' !! p = maps σ !! p)
    ∧ trace σ' = trace σ.
Proof.
  induction mus as [|mu mus IH]; intros f l σ Hf Hp Hl.
  - exists σ. done.
  - destruct (mutate_frame r mu f l σ Hf Hp Hl)
      as (σ1 & f1 & Hmu & Hf1 & Hp1 & Hl1 & Hr1 & Hm1 & Ht1).
    destruct (IH f1 l σ1 Hf1 Hp1 Hl1) as (σ' & Hmus & Hr & Hm & Ht).
    exists σ'. simpl. rewrite (bind_Done _ _ _ _ _ Hmu).
    split_and!; [done| | |congruence].
    + intros c Hc. by rewrite Hr, Hr1.
    + intros p Hne. by rewrite Hm, Hm1.
Qed.

(** What [String] returns depends on the Reference, on its query map and
    on the number of calls made so far only. *)
Lemma String_returns_eq c fc σ1 σ2 :
  refs σ1 !! c = Some fc → refs σ2 !! c = Some fc →
  params_of σ2 fc = params_of σ1 fc → trace σ2 = trace σ1 →
  returns (Firebase_String c) σ2 = returns (Firebase_String c) σ1.
Proof.
  intros H1 H2 Hp Ht. unfold returns.
  rewrite (String_run c fc σ1 H1), (String_run c fc σ2 H2). simpl.
  by rewrite Hp, Ht.
Qed.

End copy_on_derive.

(** C5 (as stated): a child derived from a Reference with a token source
    renders the resolved access token in its query string, which is
    therefore not the encoding of the query map of the parent. *)
Lemma Child_renders_access_token :
  returns (c ← Child 1%positive "users";
           s ← Firebase_String (world := tokened) c;
           mret (query_of s)) store_tok
  = Some "access_token=tok"%string
  ∧ _url.Values_Encode (query_map 1%positive store_tok) = EmptyString
  ∧ returns (c ← Child 1%positive "users";
             s ← Firebase_String (world := tokened) c;
             mret (query_of s)) store_tok
    ≠ Some (_url.Values_Encode (query_map 1%positive store_tok)).
Proof. split_and!; [vm_compute; reflexivity..|]. vm_compute. done. Qed.

(** C5 (amended): for every Reference [r] whose query map is allocated and
    every child name, [Child] gives a Reference with a query map of its
    own, equal to that of [r]; when no token is resolved for the child,
    the query string it renders is the canonical encoding of the query map
    that [r] had when [Child] was called; and no later sequence of [Auth],
    [Unauth] and [AccessToken] calls on [r] changes the child, its query
    map or what it renders. *)
Theorem Child_copy_on_derive {world : External} r f l name mus σ :
  refs σ !! r = Some f → params f = Some l → is_Some (maps σ !! l) →
  ∃ c σ1 σ2,
    Child r name σ = Done c σ1
    ∧ c ≠ r
    ∧ (∀ fc, refs σ1 !! c = Some fc → params fc ≠ params f)
    ∧ query_map c σ1 = query_map r σ
    ∧ (match tokenSrc f with
       | Some ts => resolved (tokenSource_Token (length (trace σ1)) ts)
       | None => None
       end = None →
       returns (Firebase_String c) σ1
       = Some (((url f +:+ "/" +:+ name) +:+ "/.json")
               +:+ (if bool_decide
                         (_url.Values_Encode (query_map r σ) = EmptyString)
                    then EmptyString
                    else "?" +:+ _url.Values_Encode (query_map r σ))))
    ∧ mutations r mus σ1 = Done () σ2
    ∧ refs σ2 !! c = refs σ1 !! c
    ∧ query_map c σ2 = query_map c σ1
    ∧ returns (Firebase_String c) σ2 = returns (Firebase_String c) σ1.
Proof.
  intros Hf Hp Hl.
  pose proof (Child_run r f name σ Hf) as Hc.
  rewrite Hp in Hc. specialize (Hc ltac:(by intros ? [= <-])).
  set (c := fresh (dom (refs σ))) in *.
  set (pc := fresh (dom (maps σ))) in *.
  set (fc := mkFirebase (url f +:+ "/" +:+ name) (Some pc) (client f)
               (tokenSrc f) false (Some (fresh (chans σ)))) in *.
  set (σ1 := mkStore _ _ _ _ _) in Hc.
  assert (c ≠ r) as Hcr by (symmetry; apply fresh_map_ne; eauto).
  assert (pc ≠ l) as Hpl by (symmetry; by apply fresh_map_ne).
  assert (refs σ1 !! c = Some fc) as Hfc by apply lookup_insert_eq.
  assert (query_map c σ1 = query_map r σ) as Hq.
  { unfold query_map. rewrite Hfc, Hf. unfold params_of at 1. simpl.
    by rewrite lookup_insert_eq. }
  destruct (mutations_frame r mus f l σ1) as (σ2 & Hmus & Hr & Hm & Ht).
  { simpl. by rewrite lookup_insert_ne. }
  { done. }
  { simpl. by rewrite lookup_insert_ne. }
  assert (refs σ2 !! c = Some fc) as Hfc2 by (by rewrite Hr).
  assert (params_of σ2 fc = params_of σ1 fc) as Hpc.
  { unfold params_of. simpl. by rewrite Hm. }
  exists c, σ1, σ2. split_and!; try done.
  - intros fc' Hfc'. rewrite Hfc in Hfc'. injection Hfc' as <-. simpl.
    rewrite Hp. congruence.
  - intros Htok. unfold returns. rewrite (String_run c fc σ1 Hfc). simpl.
    simpl in Htok. rewrite Htok, render_no_token.
    unfold query_map in Hq. rewrite Hfc, Hf in Hq. unfold query_map.
    rewrite Hf. by rewrite <-Hq.
  - congruence.
  - unfold query_map. by rewrite Hfc, Hfc2.
  - by apply (String_returns_eq c fc).
Qed.

Lemma Child_copy_on_derive_witness :
  ∃ c σ1 σ2,
    Child 1%positive "users" store_auth_old = Done c σ1
    ∧ returns (Firebase_String (world := answering 200 "null") c) σ1
      = Some "https://example.com/users/.json?auth=old"%string
    ∧ mutations 1%positive [MAuth "new"; MAccessToken (Some 7); MUnauth] σ1
      = Done () σ2
    ∧ query_map c σ2 = {[ "auth"%string := ["old"%string] ]}
    ∧ returns (Firebase_String (world := answering 200 "null") c) σ2
      = Some "https://example.com/users/.json?auth=old"%string.
Proof.
  run (refs store_auth_old !! 1%positive) as Hf.
  run (maps store_auth_old !! 1%positive) as Hl.
  destruct (Child_copy_on_derive (world := answering 200 "null")
              1%positive _ 1%positive "users"
              [MAuth "new"; MAccessToken (Some 7); MUnauth] store_auth_old
              Hf eq_refl (mk_is_Some _ _ Hl))
    as (c & σ1 & σ2 & Hc & _ & _ & Hq1 & Hs1 & Hmus & _ & Hq2 & Hs2).
  exists c, σ1, σ2.
  assert (returns (Firebase_String (world := answering 200 "null") c) σ1
          = Some "https://example.com/users/.json?auth=old"%string) as Hr1.
  { rewrite Hs1 by reflexivity. vm_compute. reflexivity. }
  split_and!; [exact Hc|exact Hr1|exact Hmus| |by rewrite Hs2].
  rewrite Hq2, Hq1. vm_compute. reflexivity.
Defined.

(** ** Round trips, as the caller sees them *)

Section round_trips.

Context {world : External}.

Lemma requests_log σ ev :
  requests (log σ ev)
  = requests σ ++ match ev with EvDo _ req => [req] | _ => [] end.
Proof.
  unfold requests, log. simpl. rewrite omap_app. by destruct ev.
Qed.

Lemma extends_refl σ : extends σ σ.
Proof. by split. Qed.

Lemma extends_trans σ1 σ2 σ3 : extends σ1 σ2 → extends σ2 σ3 → extends σ1 σ3.
Proof. intros [Hr Hm] [Hr' Hm']. split; eauto. Qed.

Lemma extends_log σ ev : extends σ (log σ ev).
Proof. by split. Qed.

(** [String] on an allocated Reference: it returns, asks no request, and
    changes nothing that was in the store. *)
Lemma String_extends fb f σ :
  refs σ !! fb = Some f →
  ∃ u σ1,
    Firebase_String fb σ = Done u σ1
    ∧ refs σ1 = refs σ ∧ extends σ σ1 ∧ requests σ1 = requests σ.
Proof.
  intros Hf. eexists _, _. split; [by apply String_run|]. simpl.
  split_and!; [done| |].
  - split; [done|]. simpl. intros l v Hl.
    rewrite lookup_insert_ne; [done|]. intros <-.
    by rewrite fresh_map_None in Hl.
  - unfold requests. simpl. destruct (tokenSrc f); [|done].
    rewrite omap_app. simpl. by rewrite (right_id_L [] (++)).
Qed.

(** [doRequest] on an allocated Reference: it returns, and changes nothing
    that was in the store. *)
Lemma doRequest_extends fb f ctx method body σ :
  refs σ !! fb = Some f →
  ∃ r σ2,
    doRequest fb ctx method body σ = Done r σ2
    ∧ refs σ2 = refs σ ∧ extends σ σ2.
Proof.
  intros Hf. destruct (String_extends fb f σ Hf) as (u & σ1 & Hs & Hr & He & _).
  rewrite (doRequest_rendered fb ctx method body σ u σ1 f Hs)
    by (by rewrite Hr).
  destruct (http_NewRequest method u body) as [req|msg].
  - eexists _, _. split; [done|]. split; [done|].
    eapply extends_trans; [done|apply extends_log].
  - eexists _, _. split; [done|]. done.
Qed.

(** The one request of a [doRequest] whose request can be built. *)
Lemma doRequest_sent fb f ctx method body σ u :
  refs σ !! fb = Some f →
  returns (Firebase_String fb) σ = Some u →
  http_NewRequest_error method u = None →
  ∃ r σ2,
    doRequest fb ctx method body σ = Done r σ2
    ∧ refs σ2 = refs σ ∧ extends σ σ2
    ∧ requests σ2 = requests σ ++ [mkRequest method u ∅ body ctx].
Proof.
  intros Hf Hu Hreq.
  destruct (String_extends fb f σ Hf) as (u' & σ1 & Hs & Hr & He & Hq).
  unfold returns in Hu. rewrite Hs in Hu. injection Hu as ->.
  rewrite (doRequest_rendered fb ctx method body σ u σ1 f Hs)
    by (by rewrite Hr).
  unfold http_NewRequest. rewrite Hreq. eexists _, _. split; [done|].
  split_and!; [done|eapply extends_trans; [done|apply extends_log]|].
  rewrite requests_log, Hq. by destruct ctx.
Qed.

End round_trips.

(** X1: when the value cannot be encoded, [SetC], [UpdateC] and [PushC]
    return the error of the encoder and leave the store as it was: no
    request is built or sent, and nothing is allocated. *)
Theorem encode_failure_sends_nothing {world : External} fb ctx v msg σ :
  json_Marshal v = inr msg →
  SetC fb ctx v σ = Done (Err (ErrJSON msg)) σ
  ∧ UpdateC fb ctx v σ = Done (Err (ErrJSON msg)) σ
  ∧ PushC fb ctx v σ = Done (Err (ErrJSON msg)) σ.
Proof.
  intros Hm. unfold SetC, UpdateC, PushC. rewrite Hm. done.
Qed.

Lemma encode_failure_sends_nothing_witness :
  SetC (world := unencodable) 1%positive None "v" store0
  = Done (Err (ErrJSON "json: unsupported type")) store0
  ∧ requests store0 = [].
Proof.
  split; [|reflexivity].
  apply (encode_failure_sends_nothing (world := unencodable)
           1%positive None "v"%string "json: unsupported type" store0).
  reflexivity.
Defined.

(** X2: a [doRequest] whose request can be built hands exactly one request
    to the transport: its method and body are those given, its URL is what
    [String] renders, it has no header, and its context is the one given,
    if any. *)
Theorem doRequest_sends_one_request {world : External}
    fb f ctx method body σ u :
  refs σ !! fb = Some f →
  returns (Firebase_String fb) σ = Some u →
  http_NewRequest_error method u = None →
  ∃ r σ2,
    doRequest fb ctx method body σ = Done r σ2
    ∧ requests σ2 = requests σ ++ [mkRequest method u ∅ body ctx].
Proof.
  intros Hf Hu Hreq.
  destruct (doRequest_sent fb f ctx method body σ u Hf Hu Hreq)
    as (r & σ2 & Hd & _ & _ & Hq).
  eauto.
Qed.

Lemma doRequest_sends_one_request_witness :
  ∃ r σ2,
    doRequest (world := answering 200 "null") 1%positive (Some 5) "PATCH"
      "{}" store_auth_old = Done r σ2
    ∧ requests σ2
      = [mkRequest "PATCH" "https://example.com/.json?auth=old" ∅ "{}"
           (Some 5)].
Proof.
  run (refs store_auth_old !! 1%positive) as Hf.
  run (returns (Firebase_String (world := answering 200 "null") 1%positive)
         store_auth_old) as Hu.
  exact (doRequest_sends_one_request (world := answering 200 "null")
           1%positive _ (Some 5) "PATCH" "{}" store_auth_old _ Hf Hu eq_refl).
Defined.

(** X3: when the request cannot be built, [doRequest] returns the error of
    [http.NewRequest] and hands nothing to the transport. *)
Theorem doRequest_request_error {world : External}
    fb f ctx method body σ u msg :
  refs σ !! fb = Some f →
  returns (Firebase_String fb) σ = Some u →
  http_NewRequest_error method u = Some msg →
  ∃ σ1,
    doRequest fb ctx method body σ = Done (Err (ErrRequest msg)) σ1
    ∧ requests σ1 = requests σ.
Proof.
  intros Hf Hu Hreq.
  destruct (String_extends fb f σ Hf) as (u' & σ1 & Hs & Hr & He & Hq).
  unfold returns in Hu. rewrite Hs in Hu. injection Hu as ->.
  rewrite (doRequest_rendered fb ctx method body σ u σ1 f Hs)
    by (by rewrite Hr).
  unfold http_NewRequest. rewrite Hreq. eauto.
Qed.

Lemma doRequest_request_error_witness :
  ∃ σ1,
    doRequest (world := bad_request) 1%positive None "G E T" "" store0
    = Done (Err (ErrRequest "net/http: invalid method")) σ1
    ∧ requests σ1 = [].
Proof.
  run (refs store0 !! 1%positive) as Hf.
  run (returns (Firebase_String (world := bad_request) 1%positive) store0)
    as Hu.
  exact (doRequest_request_error (world := bad_request)
           1%positive _ None "G E T" "" store0 _ _ Hf Hu eq_refl).
Defined.

(** X4: when the body of the response cannot be read, [doRequest] returns
    the error of [ioutil.ReadAll], whatever the status code of the response
    is. *)
Theorem doRequest_read_error {world : External}
    fb f ctx method body σ u σ1 resp msg :
  refs σ !! fb = Some f →
  Firebase_String fb σ = Done u σ1 →
  http_NewRequest_error method u = None →
  client_Do (length (trace σ1)) (client f) (mkRequest method u ∅ body ctx)
  = inl resp →
  ReadAll resp = inr msg →
  returns (doRequest fb ctx method body) σ = Some (Err (ErrRead msg)).
Proof.
  intros Hf Hs Hreq Hdo Hread.
  assert (refs σ1 !! fb = Some f) as Hf1.
  { rewrite (String_run fb f σ Hf) in Hs. by simplify_eq. }
  unfold returns.
  rewrite (doRequest_rendered fb ctx method body σ u σ1 f Hs Hf1).
  unfold http_NewRequest. rewrite Hreq. simpl.
  assert (with_ctx (mkRequest method u ∅ body None) ctx
          = mkRequest method u ∅ body ctx) as -> by (by destruct ctx).
  by rewrite Hdo, Hread.
Qed.

Lemma doRequest_read_error_witness :
  returns (doRequest (world := truncated) 1%positive None "GET" "") store0
  = Some (Err (ErrRead "unexpected EOF")).
Proof.
  run (refs store0 !! 1%positive) as Hf.
  run (Firebase_String (world := truncated) 1%positive store0) as Hs.
  exact (doRequest_read_error (world := truncated)
           1%positive _ None "GET" "" store0 _ _ _ "unexpected EOF"
           Hf Hs eq_refl eq_refl eq_refl).
Defined.

Section operations.

Context {world : External}.


(** Decoding is recorded, but is no request. *)
Lemma unmarshal_run bytes σ :
  unmarshal bytes σ
  = Done match json_Unmarshal bytes with
         | inl v => Ok v
         | inr msg => Err (ErrJSON msg)
         end (log σ (EvUnmarshal bytes)).
Proof. done. Qed.

(** [PushC] after its round trip. *)
Lemma PushC_after fb f ctx v bytes σ r σ2 :
  json_Marshal v = inl bytes →
  doRequest fb ctx "POST" bytes σ = Done r σ2 →
  refs σ2 !! fb = Some f →
  ∃ out σ3,
    PushC fb ctx v σ = Done out σ3
    ∧ requests σ3 = requests σ2 ∧ extends σ2 σ3.
Proof.
  intros Hm Hd Hf. unfold PushC. rewrite Hm, (bind_Done _ _ _ _ _ Hd).
  destruct r as [body|e]; [|eexists _, _; split; [done|]; split;
                             [done|apply extends_refl]].
  unfold mbind, M_bind, external, get_ref, new_ref, mret, M_ret. simpl.
  destruct (json_Unmarshal_map body) as [m|msg]; simpl.
  - rewrite Hf. eexists _, _. split; [done|]. split.
    + unfold requests. simpl. rewrite omap_app. simpl.
      by rewrite (right_id_L [] (++)).
    + split; simpl; [|done]. intros fb' f' Hf'.
      rewrite lookup_insert_ne; [done|]. intros <-.
      by rewrite fresh_map_None in Hf'.
  - eexists _, _. split; [done|]. split; [|apply extends_log].
    by rewrite requests_log, (right_id_L [] (++)).
Qed.

End operations.



Section operations_extend.

Context {world : External}.

(** Every operation returns on an allocated Reference, and changes nothing
    that was in the store. *)
Lemma operations_extend fb f ctx σ :
  refs σ !! fb = Some f →
  (∃ r σ', RemoveC fb ctx σ = Done r σ' ∧ extends σ σ')
  ∧ (∀ v, ∃ r σ', SetC fb ctx v σ = Done r σ' ∧ extends σ σ')
  ∧ (∀ v, ∃ r σ', UpdateC fb ctx v σ = Done r σ' ∧ extends σ σ')
  ∧ (∃ r σ', ValueC fb ctx σ = Done r σ' ∧ extends σ σ')
  ∧ (∃ r σ', MustValueC fb ctx σ = Done r σ' ∧ extends σ σ')
  ∧ (∀ v, ∃ r σ', PushC fb ctx v σ = Done r σ' ∧ extends σ σ').
Proof.
  intros Hf.
  assert (∀ method body, ∃ r σ2,
            doRequest fb ctx method body σ = Done r σ2
            ∧ refs σ2 = refs σ ∧ extends σ σ2) as Hd
    by (intros; by eapply doRequest_extends).
  split_and!.
  - destruct (Hd "DELETE"%string ""%string) as (r & σ2 & Hr & _ & He).
    unfold RemoveC. rewrite (bind_Done _ _ _ _ _ Hr).
    destruct r; by eexists _, σ2.
  - intros v. unfold SetC. destruct (json_Marshal v) as [bytes|msg];
      [|eexists _, σ; split; [done|apply extends_refl]].
    destruct (Hd "PUT"%string bytes) as (r & σ2 & Hr & _ & He).
    rewrite (bind_Done _ _ _ _ _ Hr). destruct r; by eexists _, σ2.
  - intros v. unfold UpdateC. destruct (json_Marshal v) as [bytes|msg];
      [|eexists _, σ; split; [done|apply extends_refl]].
    destruct (Hd "PATCH"%string bytes) as (r & σ2 & Hr & _ & He).
    rewrite (bind_Done _ _ _ _ _ Hr). destruct r; by eexists _, σ2.
  - destruct (Hd "GET"%string ""%string) as (r & σ2 & Hr & _ & He).
    unfold ValueC. rewrite (bind_Done _ _ _ _ _ Hr).
    destruct r as [body|e]; [|by eexists _, σ2].
    rewrite unmarshal_run. eexists _, _. split; [done|].
    eapply extends_trans; [done|apply extends_log].
  - destruct (Hd "GET"%string ""%string) as (r & σ2 & Hr & _ & He).
    unfold MustValueC. rewrite (bind_Done _ _ _ _ _ Hr).
    destruct r as [body|e]; [|by eexists _, σ2].
    destruct (_ || _); [by eexists _, σ2|].
    rewrite unmarshal_run. eexists _, _. split; [done|].
    eapply extends_trans; [done|apply extends_log].
  - intros v. destruct (json_Marshal v) as [bytes|msg] eqn:Hm.
    + destruct (Hd "POST"%string bytes) as (r & σ2 & Hr & Hrefs & He).
      destruct (PushC_after fb f ctx v bytes σ r σ2 Hm Hr)
        as (out & σ3 & Hp & _ & He'); [by rewrite Hrefs|].
      exists out, σ3. split; [done|]. by eapply extends_trans.
    + unfold PushC. rewrite Hm. eexists _, σ.
      split; [done|apply extends_refl].
Qed.

End operations_extend.

(** X6: on an allocated Reference every operation that makes a round trip
    returns, and leaves every Reference and every query map that was in
    the store as it was: a request never changes the configuration of a
    Reference. *)
Theorem perform_extends {world : External} fb f ctx op σ :
  refs σ !! fb = Some f →
  ∃ σ', perform fb ctx op σ = Done () σ' ∧ extends σ σ'.
Proof.
  intros Hf.
  destruct (operations_extend fb f ctx σ Hf)
    as (Hrem & Hset & Hupd & Hval & Hmust & Hpush).
  destruct op as [|v|v| | |v]; simpl.
  - destruct Hrem as (r & σ' & Hr & He).
    rewrite (bind_Done _ _ _ _ _ Hr). by exists σ'.
  - destruct (Hset v) as (r & σ' & Hr & He).
    rewrite (bind_Done _ _ _ _ _ Hr). by exists σ'.
  - destruct (Hupd v) as (r & σ' & Hr & He).
    rewrite (bind_Done _ _ _ _ _ Hr). by exists σ'.
  - destruct Hval as (r & σ' & Hr & He).
    rewrite (bind_Done _ _ _ _ _ Hr). by exists σ'.
  - destruct Hmust as (r & σ' & Hr & He).
    rewrite (bind_Done _ _ _ _ _ Hr). by exists σ'.
  - destruct (Hpush v) as (r & σ' & Hr & He).
    rewrite (bind_Done _ _ _ _ _ Hr). by exists σ'.
Qed.

Lemma perform_extends_witness :
  ∃ σ',
    perform (world := answering 200 "-Kabc") 1%positive None
      (OpPush (world := answering 200 "-Kabc") "v") store_auth_old
    = Done () σ'
    ∧ query_map 1%positive σ' = {[ "auth"%string := ["old"%string] ]}.
Proof.
  run (refs store_auth_old !! 1%positive) as Hf.
  destruct (perform_extends (world := answering 200 "-Kabc") 1%positive _
              None (OpPush (world := answering 200 "-Kabc") "v"%string)
              store_auth_old Hf)
    as (σ' & Hp & Hrefs & Hmaps).
  exists σ'. split; [exact Hp|].
  run (maps store_auth_old !! 1%positive) as Hl.
  unfold query_map, params_of. rewrite (Hrefs _ _ Hf). simpl.
  rewrite (Hmaps _ _ Hl). reflexivity.
Defined.

(** X7: [ValueC] hands every body of a successful round trip to the
    deserializer, the empty body and [null] included, and returns the error
    of a failed round trip as it is; [MustValueC] does the same as [ValueC]
    unless the body is empty or [null]. *)
Theorem ValueC_MustValueC_agree {world : External} fb ctx σ r σ1 :
  doRequest fb ctx "GET" "" σ = Done r σ1 →
  (∀ bytes, r = Ok bytes →
     ValueC fb ctx σ
     = Done match json_Unmarshal bytes with
            | inl v => Ok v
            | inr msg => Err (ErrJSON msg)
            end (log σ1 (EvUnmarshal bytes)))
  ∧ (∀ e, r = Err e → ValueC fb ctx σ = Done (Err e) σ1)
  ∧ ((∀ bytes, r = Ok bytes → missing bytes = false) →
     MustValueC fb ctx σ = ValueC fb ctx σ).
Proof.
  intros Hd. unfold ValueC, MustValueC. rewrite !(bind_Done _ _ _ _ _ Hd).
  split_and!.
  - by intros bytes ->.
  - by intros e ->.
  - intros Hm. destruct r as [bytes|e]; [|done].
    by rewrite missing_length, (Hm bytes eq_refl).
Qed.

Lemma ValueC_MustValueC_agree_witness :
  returns (ValueC (world := answering 200 "null") 1%positive None) store0
  = Some (Ok "null"%string)
  ∧ returns (MustValueC (world := answering 200 "null") 1%positive None)
      store0 = Some (Err ErrValueMissing).
Proof.
  run (doRequest (world := answering 200 "null") 1%positive None "GET" ""
         store0) as Hd.
  destruct (ValueC_MustValueC_agree (world := answering 200 "null")
              _ _ _ _ _ Hd) as (Hok & _ & _).
  split; [|vm_compute; reflexivity].
  unfold returns. rewrite (Hok _ eq_refl). reflexivity.
Defined.

(** X8: the redirect policy lets a redirect be followed exactly when the
    chain of requests made so far has at most 30 requests; when it rejects
    the redirect, and when the chain is empty, the request is left as it
    is. *)
Theorem redirectPreserveHeaders_limit_exact req via :
  ((redirectPreserveHeaders req via).2 = None ↔ length via ≤ 30)
  ∧ (30 < length via ∨ via = [] → (redirectPreserveHeaders req via).1 = req).
Proof.
  split.
  - destruct via as [|first rest]; [simpl; split; [lia|done]|].
    unfold redirectPreserveHeaders, defaultRedirectLimit.
    destruct (30 <? Z.of_nat (length (first :: rest)))%Z eqn:E; simpl.
    + apply Z.ltb_lt in E. split; [done|]. simpl in *. lia.
    + apply Z.ltb_ge in E. split; [|done]. simpl in *. lia.
  - intros [Hlen| ->]; [|done].
    destruct via as [|first rest]; [done|].
    unfold redirectPreserveHeaders, defaultRedirectLimit.
    rewrite (proj2 (Z.ltb_lt 30 (Z.of_nat (length (first :: rest)))));
      [done|]. simpl in *. lia.
Qed.

Section fresh_reference.

Context {world : External}.

Lemma Values_Encode_empty : _url.Values_Encode ∅ = EmptyString.
Proof. reflexivity. Qed.

(** What [String] returns on a Reference without token source. *)
Lemma String_no_token_source fb f σ :
  refs σ !! fb = Some f → tokenSrc f = None →
  ∃ σ',
    Firebase_String fb σ
    = Done ((url f +:+ "/.json")
            +:+ (if bool_decide
                      (_url.Values_Encode (query_map fb σ) = EmptyString)
                 then EmptyString
                 else "?" +:+ _url.Values_Encode (query_map fb σ))) σ'
    ∧ trace σ' = trace σ.
Proof.
  intros Hf Hts. rewrite (String_run fb f σ Hf). simpl. rewrite Hts.
  rewrite render_no_token. unfold query_map. rewrite Hf. eauto.
Qed.

End fresh_reference.

(** X9: [New] allocates a Reference that was not in the store and changes
    nothing that was there; the Reference has the sanitized URL as its
    path, an empty query map and no token source, and it uses the client
    given, or else a client of its own that preserves headers on redirect
    and keeps no connection alive.  Rendered at once, it gives the path
    followed by [/.json], without query and without asking anything of the
    collaborators. *)
Theorem New_renders_path {world : External} u cl σ :
  ∃ fb f σ1 σ2,
    New u cl σ = Done fb σ1
    ∧ refs σ !! fb = None ∧ extends σ σ1
    ∧ refs σ1 !! fb = Some f
    ∧ url f = sanitizeURL u ∧ tokenSrc f = None ∧ query_map fb σ1 = ∅
    ∧ match cl with
      | Some c => client f = c ∧ clients σ1 = clients σ
      | None => clients σ !! client f = None
                ∧ clients σ1 !! client f = Some (mkClient true true)
      end
    ∧ Firebase_String fb σ1 = Done (sanitizeURL u +:+ "/.json") σ2
    ∧ trace σ2 = trace σ.
Proof.
  set (fb := fresh (dom (refs σ))).
  set (c := match cl with
            | Some c => c
            | None => fresh (dom (clients σ))
            end).
  set (f := mkFirebase (sanitizeURL u) (Some (fresh (dom (maps σ)))) c None
              false (Some (fresh (chans σ)))).
  set (σ1 := mkStore (<[fb := f]> (refs σ))
               (<[fresh (dom (maps σ)) := ∅]> (maps σ))
               ({[fresh (chans σ)]} ∪ chans σ)
               (match cl with
                | Some _ => clients σ
                | None => <[c := mkClient true true]> (clients σ)
                end) (trace σ)).
  assert (New u cl σ = Done fb σ1) as Hnew by (by destruct cl).
  assert (refs σ1 !! fb = Some f) as Hf by apply lookup_insert_eq.
  assert (query_map fb σ1 = ∅) as Hq.
  { unfold query_map. rewrite Hf. unfold params_of. simpl.
    by rewrite lookup_insert_eq. }
  destruct (String_no_token_source fb f σ1 Hf eq_refl) as (σ2 & Hs & Ht).
  rewrite Hq, Values_Encode_empty in Hs. simpl in Hs.
  rewrite app_empty_r in Hs.
  exists fb, f, σ1, σ2. split_and!; try done.
  - apply fresh_map_None.
  - split; simpl.
    + intros fb' f' Hf'. rewrite lookup_insert_ne; [done|]. intros <-.
      unfold fb in Hf'. by rewrite fresh_map_None in Hf'.
    + intros l v Hl. rewrite lookup_insert_ne; [done|]. intros <-.
      by rewrite fresh_map_None in Hl.
  - unfold σ1, c. destruct cl as [c'|]; simpl; [done|].
    split; [apply fresh_map_None|apply lookup_insert_eq].
Qed.

Section auth.

Context {world : External}.

(** [Auth] on a Reference with a map. *)
Lemma Auth_run fb f l token σ :
  refs σ !! fb = Some f → params f = Some l →
  Auth fb token σ
  = Done () (mkStore (refs σ)
               (<[l := <[authParam := [token]]> (default ∅ (maps σ !! l))]>
                  (maps σ))
               (chans σ) (clients σ) (trace σ)).
Proof.
  intros Hf Hp. unfold Auth.
  rewrite (bind_Done _ _ _ _ _ (get_ref_Done _ _ _ Hf)).
  unfold update_map. by rewrite Hp.
Qed.

(** The encoding of a map with one entry holding one value. *)
Lemma Values_Encode_singleton (k x : string) :
  _url.Values_Encode {[ k := [x] ]}
  = _url.QueryEscape k +:+ "=" +:+ _url.QueryEscape x.
Proof.
  unfold _url.Values_Encode, _url.sortedKeys.
  rewrite map_to_list_singleton. simpl. by rewrite lookup_singleton_eq.
Qed.

End auth.

(** X10: [Auth] overwrites: after [Auth(t1)] and [Auth(t2)] the store is
    the one that [Auth(t2)] alone leaves, in which the query map holds the
    single value [t2] under [auth] and is otherwise as before. *)
Theorem Auth_overwrites fb f l token1 token2 σ :
  refs σ !! fb = Some f → params f = Some l →
  (Auth fb token1;; Auth fb token2) σ = Auth fb token2 σ
  ∧ ∃ σ', Auth fb token2 σ = Done () σ'
          ∧ refs σ' = refs σ
          ∧ query_map fb σ' = <[authParam := [token2]]> (query_map fb σ).
Proof.
  intros Hf Hp. split.
  - rewrite (bind_Done _ _ _ _ _ (Auth_run fb f l token1 σ Hf Hp)).
    rewrite (Auth_run fb f l token2 σ Hf Hp).
    erewrite Auth_run; [|exact Hf|exact Hp]. simpl.
    rewrite lookup_insert_eq, !insert_insert_eq. simpl.
    by rewrite insert_insert_eq.
  - rewrite (Auth_run fb f l token2 σ Hf Hp). eexists. split; [done|].
    split; [done|]. unfold query_map, params_of. simpl.
    by rewrite Hf, Hp, lookup_insert_eq.
Qed.

Lemma Auth_overwrites_witness :
  query_map 1%positive
    <$> leaves (Auth 1%positive "new") store_auth_old
  = Some {[ "auth"%string := ["new"%string] ]}.
Proof.
  run (refs store_auth_old !! 1%positive) as Hf.
  destruct (Auth_overwrites 1%positive _ 1%positive "t" "new" store_auth_old
              Hf eq_refl) as (_ & σ' & Ha & _ & Hq).
  unfold leaves. rewrite Ha. simpl. rewrite Hq. reflexivity.
Defined.

(** X11: a Reference made by [New] and given a token by [Auth] renders the
    sanitized URL followed by [/.json?auth=] and the token, escaped as a
    query component. *)
Theorem New_Auth_renders_token {world : External} u cl token σ :
  returns (fb ← New u cl; Auth fb token;; Firebase_String fb) σ
  = Some ((sanitizeURL u +:+ "/.json")
          +:+ "?auth=" +:+ _url.QueryEscape token).
Proof.
  destruct (New_run u cl σ) as (c & p & ch & Hnew & Hp).
  unfold returns. rewrite (bind_Done _ _ _ _ _ Hnew).
  set (fb := fresh (dom (refs σ))).
  set (f := mkFirebase (sanitizeURL u) (Some p) c None false (Some ch)).
  set (σ1 := mkStore _ _ _ _ _).
  assert (refs σ1 !! fb = Some f) as Hf by apply lookup_insert_eq.
  rewrite (bind_Done _ _ _ _ _ (Auth_run fb f p token σ1 Hf eq_refl)).
  set (σ2 := mkStore _ _ _ _ _).
  assert (refs σ2 !! fb = Some f) as Hf2 by exact Hf.
  destruct (String_no_token_source fb f σ2 Hf2 eq_refl) as (σ3 & -> & _).
  assert (query_map fb σ2 = {[ authParam := [token] ]}) as ->.
  { unfold query_map. rewrite Hf2. unfold params_of. simpl.
    rewrite !lookup_insert_eq. simpl. by rewrite insert_empty. }
  rewrite Values_Encode_singleton. done.
Qed.

(** X12: [Unauth] returns on every allocated Reference, also on one whose
    query map is nil; it removes the [auth] entry only, and a second
    [Unauth] changes nothing any more. *)
Theorem Unauth_idempotent fb f σ :
  refs σ !! fb = Some f →
  ∃ σ', Unauth fb σ = Done () σ'
        ∧ refs σ' = refs σ
        ∧ query_map fb σ' = delete authParam (query_map fb σ)
        ∧ Unauth fb σ' = Done () σ'.
Proof.
  intros Hf. unfold Unauth.
  rewrite (bind_Done _ _ _ _ _ (get_ref_Done _ _ _ Hf)).
  destruct (params f) as [l|] eqn:Hp.
  - unfold delete_map, update_map. eexists. split; [done|]. simpl.
    split; [done|]. split.
    + unfold query_map, params_of. simpl.
      by rewrite Hf, Hp, lookup_insert_eq.
    + unfold mbind, M_bind, get_ref. simpl. rewrite Hf, Hp. simpl.
      rewrite lookup_insert_eq, insert_insert_eq. simpl.
      unfold _url.Values_Del. by rewrite delete_delete_eq.
  - unfold delete_map. exists σ. split; [done|]. split; [done|]. split.
    + unfold query_map, params_of. rewrite Hf, Hp. by rewrite delete_empty.
    + unfold mbind, M_bind, get_ref. by rewrite Hf, Hp.
Qed.

Lemma Unauth_idempotent_witness :
  query_map 1%positive <$> leaves (Unauth 1%positive) store_auth_old
  = Some ∅.
Proof.
  run (refs store_auth_old !! 1%positive) as Hf.
  destruct (Unauth_idempotent 1%positive _ store_auth_old Hf)
    as (σ' & Hu & _ & Hq & _).
  unfold leaves. rewrite Hu. simpl. rewrite Hq. reflexivity.
Defined.

Lemma fresh_map_ne_l {A} (m : gmap loc A) l :
  is_Some (m !! l) → fresh (dom m) ≠ l.
Proof. intros H E. by apply (fresh_map_ne m l H). Qed.

(** X13: [Child] allocates a Reference that was not in the store and
    changes nothing that was there, the parent included.  The child has the
    path of the parent followed by a slash and the name, the client and
    the token source of the parent, a query map of its own holding the
    entries of the parent, and a watch state of its own: a channel that was
    not in the store, and [watching] false.  Nothing is asked of the
    collaborators. *)
Theorem Child_leaves_parent r f name σ :
  refs σ !! r = Some f →
  (∀ l, params f = Some l → is_Some (maps σ !! l)) →
  ∃ c fc p ch σ',
    Child r name σ = Done c σ'
    ∧ refs σ !! c = None ∧ extends σ σ' ∧ trace σ' = trace σ
    ∧ refs σ' !! c = Some fc
    ∧ url fc = url f +:+ "/" +:+ name
    ∧ client fc = client f ∧ tokenSrc fc = tokenSrc f
    ∧ watching fc = false
    ∧ stopWatching fc = Some ch ∧ (ch ∉ chans σ) ∧ (ch ∈ chans σ')
    ∧ params fc = Some p ∧ maps σ !! p = None
    ∧ maps σ' !! p = Some (query_map r σ).
Proof.
  intros Hf Hwf.
  exists (fresh (dom (refs σ))),
    (mkFirebase (url f +:+ "/" +:+ name) (Some (fresh (dom (maps σ))))
       (client f) (tokenSrc f) false (Some (fresh (chans σ)))),
    (fresh (dom (maps σ))), (fresh (chans σ)).
  eexists. split; [by apply Child_run|]. simpl.
  split_and!; try done.
  - apply fresh_map_None.
  - split; simpl.
    + intros fb' f' Hf'. rewrite lookup_insert_ne; [done|]. intros <-.
      by rewrite fresh_map_None in Hf'.
    + intros l v Hl. rewrite lookup_insert_ne; [done|]. intros <-.
      by rewrite fresh_map_None in Hl.
  - apply lookup_insert_eq.
  - apply is_fresh.
  - set_solver.
  - apply fresh_map_None.
  - rewrite lookup_insert_eq. unfold query_map. by rewrite Hf.
Qed.

Lemma Child_leaves_parent_witness :
  ∃ c σ',
    Child 1%positive "users" store_tok = Done c σ'
    ∧ path_of c σ' = "https://example.com/users"%string
    ∧ (tokenSrc <$> refs σ' !! c) = Some (Some 7)
    ∧ path_of 1%positive σ' = "https://example.com"%string.
Proof.
  run (refs store_tok !! 1%positive) as Hf.
  destruct (Child_leaves_parent 1%positive _ "users" store_tok Hf)
    as (c & fc & p & ch & σ' & Hc & _ & [Hrefs _] & _ & Hfc & Hu & _ & Hts
        & _).
  { intros l [= <-]. vm_compute. eauto. }
  exists c, σ'. split; [exact Hc|]. unfold path_of.
  rewrite Hfc, (Hrefs _ _ Hf). simpl. rewrite Hu, Hts. split_and!; reflexivity.
Defined.

(** X14: a Reference derived after a change observes it: the child made by
    [Child] after [Auth(token)] holds the token in its query map, as the
    parent does. *)
Theorem Auth_then_Child r f l token name σ :
  refs σ !! r = Some f → params f = Some l →
  ∃ c σ',
    (Auth r token;; Child r name) σ = Done c σ'
    ∧ query_map c σ' = <[authParam := [token]]> (query_map r σ)
    ∧ query_map r σ' = <[authParam := [token]]> (query_map r σ).
Proof.
  intros Hf Hp.
  rewrite (bind_Done _ _ _ _ _ (Auth_run r f l token σ Hf Hp)).
  set (σ1 := mkStore _ _ _ _ _).
  assert (refs σ1 !! r = Some f) as Hf1 by exact Hf.
  assert (query_map r σ1 = <[authParam := [token]]> (query_map r σ)) as Hq.
  { unfold query_map, params_of. rewrite Hf1, Hf, Hp. simpl.
    by rewrite lookup_insert_eq. }
  rewrite (Child_run r f name σ1 Hf1).
  2:{ intros l' Hl'. rewrite Hp in Hl'. injection Hl' as <-.
      simpl. rewrite lookup_insert_eq. eauto. }
  eexists _, _. split; [done|]. split.
  - unfold query_map at 1. simpl. rewrite lookup_insert_eq.
    unfold params_of at 1. simpl. rewrite lookup_insert_eq. simpl.
    unfold query_map in Hq. by rewrite Hf1 in Hq.
  - rewrite <-Hq. unfold query_map. simpl.
    rewrite lookup_insert_ne by (apply fresh_map_ne_l; eauto).
    rewrite Hf. unfold params_of. rewrite Hp. simpl.
    rewrite lookup_insert_ne; [done|].
    apply fresh_map_ne_l. rewrite lookup_insert_eq. eauto.
Qed.

Lemma Auth_then_Child_witness :
  ∃ c σ',
    (Auth 1%positive "t";; Child 1%positive "users") store0 = Done c σ'
    ∧ query_map c σ' = {[ "auth"%string := ["t"%string] ]}.
Proof.
  run (refs store0 !! 1%positive) as Hf.
  destruct (Auth_then_Child 1%positive _ 1%positive "t" "users" store0
              Hf eq_refl) as (c & σ' & Hc & Hq & _).
  exists c, σ'. split; [exact Hc|]. rewrite Hq. reflexivity.
Defined.

(** X15: [PushC] allocates a Reference only when it succeeds, and changes
    no Reference that was in the store.  The Reference it returns takes
    only the path and the client from the parent: it has no token source,
    even when the parent has one. *)
Theorem PushC_takes_path_and_client {world : External} fb f ctx v out σ σ' :
  refs σ !! fb = Some f →
  PushC fb ctx v σ = Done out σ' →
  (∀ e, out = Err e → refs σ' = refs σ)
  ∧ (∀ c, out = Ok c →
       refs σ !! c = None
       ∧ ∃ fc, refs σ' = <[c := fc]> (refs σ)
               ∧ strings.HasPrefix (url fc) (url f +:+ "/") = true
               ∧ client fc = client f ∧ tokenSrc fc = None
               ∧ params fc = None).
Proof.
  intros Hf. unfold PushC.
  destruct (json_Marshal v) as [bytes|msg];
    [|intros [= <- <-]; split; [done|by intros c]].
  destruct (doRequest_extends fb f ctx "POST" bytes σ Hf)
    as (r & σ2 & Hd & Hr & _).
  rewrite (bind_Done _ _ _ _ _ Hd).
  destruct r as [body|e]; [|intros [= <- <-]; split; [done|by intros c]].
  unfold mbind, M_bind, external, get_ref, new_ref, mret, M_ret. simpl.
  destruct (json_Unmarshal_map body) as [m|msg]; simpl;
    [|intros [= <- <-]; split; [done|by intros c]].
  rewrite Hr, Hf. intros [= <- <-]. simpl. split; [done|].
  intros c [= <-]. rewrite Hr. split; [apply fresh_map_None|].
  eexists. split; [done|]. simpl. split; [|done].
  rewrite <-app_assoc. apply HasPrefix_app.
Qed.

Lemma PushC_takes_path_and_client_witness :
  ∃ c σ',
    PushC (world := tokened) 1%positive None "v" store_tok = Done (Ok c) σ'
    ∧ (tokenSrc <$> refs σ' !! c) = Some None
    ∧ (tokenSrc <$> refs store_tok !! 1%positive) = Some (Some 7).
Proof.
  run (refs store_tok !! 1%positive) as Hf.
  run (PushC (world := tokened) 1%positive None "v"%string store_tok) as Hp.
  match type of Hp with
  | _ = Done (Ok ?c) ?s => set (σ' := s) in Hp; exists c, σ'
  end.
  destruct (PushC_takes_path_and_client (world := tokened) 1%positive _ None
              "v"%string _ store_tok σ' Hf Hp) as [_ Hok].
  destruct (Hok _ eq_refl) as (_ & fc & Hrefs & _ & _ & Hts & _).
  split; [exact Hp|]. split; [|reflexivity].
  rewrite Hrefs, lookup_insert_eq. simpl. by rewrite Hts.
Defined.



Section tokens.

Context {world : External}.

Lemma token_calls_app σ ts :
  omap (λ ev, match ev with EvToken ts => Some ts | _ => None end)
    (trace σ ++ [EvToken ts])
  = token_calls σ ++ [ts].
Proof. unfold token_calls. by rewrite omap_app. Qed.

End tokens.

(** X17: when the token source of a Reference answers with an error, or
    with no token, [String] still returns, and renders what it renders
    without token source: the path, [/.json], and the canonical encoding of
    the query map after a question mark, if that encoding is not empty.
    The token source has been asked once. *)
Theorem String_ignores_token_failure {world : External} fb f ts σ :
  refs σ !! fb = Some f →
  tokenSrc f = Some ts →
  resolved (tokenSource_Token (length (trace σ)) ts) = None →
  ∃ σ',
    Firebase_String fb σ
    = Done ((url f +:+ "/.json")
            +:+ (if bool_decide
                      (_url.Values_Encode (query_map fb σ) = EmptyString)
                 then EmptyString
                 else "?" +:+ _url.Values_Encode (query_map fb σ))) σ'
    ∧ token_calls σ' = token_calls σ ++ [ts].
Proof.
  intros Hf Hts Hres. rewrite (String_run fb f σ Hf). simpl.
  rewrite Hts, Hres, render_no_token. unfold query_map. rewrite Hf.
  eexists. split; [done|]. unfold token_calls at 1. simpl.
  apply token_calls_app.
Qed.

Lemma String_ignores_token_failure_witness :
  returns (Firebase_String (world := token_failing) 1%positive) store_tok
  = Some "https://example.com/.json"%string.
Proof.
  run (refs store_tok !! 1%positive) as Hf.
  destruct (String_ignores_token_failure (world := token_failing)
              1%positive _ 7 store_tok Hf eq_refl eq_refl) as (σ' & Hs & _).
  unfold returns. rewrite Hs. reflexivity.
Defined.

(** X18: when the token source of a Reference resolves a token, [String]
    renders a query in every case: the canonical encoding of the entries
    of the query map that hold a value, with the token added under
    [access_token]. *)
Theorem String_adds_access_token {world : External} fb f ts token σ :
  refs σ !! fb = Some f →
  tokenSrc f = Some ts →
  resolved (tokenSource_Token (length (trace σ)) ts) = Some token →
  returns (Firebase_String fb) σ
  = Some ((url f +:+ "/.json") +:+ "?"
          +:+ _url.Values_Encode
                (_url.Values_Add (nonempty (query_map fb σ))
                   accessTokenParam token)).
Proof.
  intros Hf Hts Hres. unfold returns. rewrite (String_run fb f σ Hf). simpl.
  rewrite Hts, Hres. unfold render, paramsCopy_of.
  rewrite ParseQuery_Encode. simpl.
  rewrite bool_decide_eq_true_2.
  - unfold query_map. by rewrite Hf.
  - unfold _url.Values_Add.
    destruct (decide (size (<[accessTokenParam :=
                default [] (nonempty (params_of σ f) !! accessTokenParam)
                ++ [token]]> (nonempty (params_of σ f))) = 0)) as [E|E];
      [|lia].
    apply map_size_empty_iff in E.
    apply (f_equal (λ m, m !! accessTokenParam)) in E.
    by rewrite lookup_insert_eq, lookup_empty in E.
Qed.

Lemma String_adds_access_token_witness :
  returns (Firebase_String (world := tokened) 1%positive) store_tok
  = Some "https://example.com/.json?access_token=tok"%string.
Proof.
  run (refs store_tok !! 1%positive) as Hf.
  rewrite (String_adds_access_token (world := tokened) 1%positive _ 7 "tok"
             store_tok Hf eq_refl eq_refl).
  vm_compute. reflexivity.
Defined.

(** X19: [AccessToken] changes the token source of its Reference and
    nothing else: the query map, the other References and the calls made
    so far are as before.  The next [String] asks the new token source
    once, and asks nothing when the token source was set to nil. *)
Theorem AccessToken_then_String {world : External} fb f ts σ :
  refs σ !! fb = Some f →
  ∃ σ1 u σ2,
    AccessToken fb ts σ = Done () σ1
    ∧ (tokenSrc <$> refs σ1 !! fb) = Some ts
    ∧ query_map fb σ1 = query_map fb σ
    ∧ (∀ fb', fb' ≠ fb → refs σ1 !! fb' = refs σ !! fb')
    ∧ maps σ1 = maps σ ∧ trace σ1 = trace σ
    ∧ Firebase_String fb σ1 = Done u σ2
    ∧ token_calls σ2
      = token_calls σ ++ match ts with Some ts => [ts] | None => [] end.
Proof.
  intros Hf. unfold AccessToken.
  rewrite (bind_Done _ _ _ _ _ (get_ref_Done _ _ _ Hf)). unfold set_ref.
  set (f1 := mkFirebase (url f) (params f) (client f) ts (watching f)
               (stopWatching f)).
  set (σ1 := mkStore _ _ _ _ _).
  assert (refs σ1 !! fb = Some f1) as Hf1 by apply lookup_insert_eq.
  eexists σ1, _, _. split; [done|]. split_and!.
  - by rewrite Hf1.
  - unfold query_map. by rewrite Hf1, Hf.
  - intros fb' Hne. simpl. by rewrite lookup_insert_ne.
  - done.
  - done.
  - by apply String_run.
  - unfold token_calls at 1. simpl. destruct ts as [ts|]; simpl.
    + apply (token_calls_app σ ts).
    + by rewrite (right_id_L [] (++)).
Qed.

Lemma AccessToken_then_String_witness :
  ∃ σ1 u σ2,
    AccessToken 1%positive None store_tok = Done () σ1
    ∧ Firebase_String (world := tokened) 1%positive σ1 = Done u σ2
    ∧ token_calls σ2 = [].
Proof.
  run (refs store_tok !! 1%positive) as Hf.
  destruct (AccessToken_then_String (world := tokened) 1%positive _ None
              store_tok Hf)
    as (σ1 & u & σ2 & Ha & _ & _ & _ & _ & _ & Hs & Ht).
  exists σ1, u, σ2. split; [exact Ha|]. split; [exact Hs|].
  rewrite Ht. reflexivity.
Defined.

(** X20: an input that is not empty, does not begin with [http://] or
    [https://] (in lower case) and does not end with a slash is given the
    scheme [https://] and is otherwise kept whole by [sanitizeURL]. *)
Theorem sanitizeURL_defaults_scheme (u : string) :
  hasScheme u = false → u ≠ EmptyString → strings.HasSuffix u "/" = false →
  sanitizeURL u = "https://" +:+ u.
Proof.
  intros Hs Hne Hsl. rewrite sanitizeURL_unfold.
  assert (withScheme u = "https://" +:+ u) as ->.
  { unfold withScheme. unfold hasScheme in Hs.
    apply orb_false_iff in Hs as [-> ->]. done. }
  rewrite HasSuffix_app_r, Hsl; [done|]. destruct u; [done|]. simpl. lia.
Qed.

Lemma sanitizeURL_defaults_scheme_witness :
  sanitizeURL "HTTP://example.com" = "https://HTTP://example.com"%string.
Proof.
  apply (sanitizeURL_defaults_scheme "HTTP://example.com");
    [reflexivity|discriminate|reflexivity].
Defined.

(** X21: [sanitizeURL] keeps a URL that has a scheme and no slash at its
    end, and gives the same URL back when one slash is added at its end. *)
Theorem sanitizeURL_one_slash (s : string) :
  hasScheme s = true → strings.HasSuffix s "/" = false →
  sanitizeURL s = s ∧ sanitizeURL (s +:+ "/") = s.
Proof.
  intros Hs Hsl. split; [by apply sanitizeURL_normalized|].
  rewrite sanitizeURL_unfold, withScheme_id by (unfold hasScheme in *; apply orb_true_iff in Hs as [Hs|Hs];
        [rewrite (HasPrefix_app_l _ _ _ Hs)|
         rewrite (HasPrefix_app_l _ _ _ Hs), orb_true_r]; done).
  rewrite HasSuffix_app. apply (slice_drop_last s "/").
Qed.

Lemma sanitizeURL_one_slash_witness :
  sanitizeURL "http://example.com/a" = "http://example.com/a"%string
  ∧ sanitizeURL "http://example.com/a/" = "http://example.com/a"%string.
Proof.
  apply (sanitizeURL_one_slash "http://example.com/a"); reflexivity.
Defined.

(** X22: the copy of the query map that [String] makes by parsing the
    encoding of the map is faithful: parsing finds no error, and gives back
    every entry that holds at least one value, with its values in order;
    the entries without value, which the encoding does not show, are the
    only ones lost.  Escaping a string and unescaping it gives the string
    back. *)
Theorem ParseQuery_Encode_roundtrip (v : gmap string (list string)) :
  _url.ParseQuery (_url.Values_Encode v) = (nonempty v, false)
  ∧ (∀ k vs, v !! k = Some vs → vs ≠ [] →
       (_url.ParseQuery (_url.Values_Encode v)).1 !! k = Some vs)
  ∧ (∀ k, v !! k = Some [] →
       (_url.ParseQuery (_url.Values_Encode v)).1 !! k = None)
  ∧ _url.Values_Encode (_url.ParseQuery (_url.Values_Encode v)).1
    = _url.Values_Encode v
  ∧ ∀ s, _url.QueryUnescape (_url.QueryEscape s) = Some s.
Proof.
  rewrite ParseQuery_Encode. simpl. split_and!.
  - done.
  - intros k vs Hk Hvs. by apply map_lookup_filter_Some.
  - intros k Hk. apply map_lookup_filter_None. right.
    intros vs Hvs. rewrite Hk in Hvs. injection Hvs as <-. by intros Hn.
  - apply Values_Encode_nonempty.
  - apply QueryUnescape_QueryEscape.
Qed.

Section chains.

(** A chain of derivations keeps the configuration of its root. *)
Lemma Children_inherit_from names : ∀ fb f σ,
  wf σ → refs σ !! fb = Some f →
  ∃ c σ' fc,
    Children fb names σ = Done c σ'
    ∧ wf σ' ∧ extends σ σ' ∧ trace σ' = trace σ
    ∧ refs σ' !! c = Some fc
    ∧ url fc = foldl (λ path name, path +:+ "/" +:+ name) (url f) names
    ∧ client fc = client f ∧ tokenSrc fc = tokenSrc f
    ∧ query_map c σ' = query_map fb σ.
Proof.
  induction names as [|name names IH]; intros fb f σ Hwf Hf.
  - exists fb, σ, f. split_and!; done.
  - simpl. pose proof (Child_run fb f name σ Hf ltac:(eauto)) as Hc.
    pose proof (wf_Child _ _ _ _ _ _ Hwf Hf Hc) as Hwf1.
    rewrite (bind_Done _ _ _ _ _ Hc).
    set (c1 := fresh (dom (refs σ))) in *.
    set (f1 := mkFirebase _ _ _ _ _ _) in *.
    set (σ1 := mkStore _ _ _ _ _) in *.
    assert (refs σ1 !! c1 = Some f1) as Hf1 by apply lookup_insert_eq.
    assert (extends σ σ1) as He1.
    { split; simpl.
      - intros fb' f' Hf'. rewrite lookup_insert_ne; [done|]. intros <-.
        unfold c1 in Hf'. by rewrite fresh_map_None in Hf'.
      - intros l v Hl. rewrite lookup_insert_ne; [done|]. intros <-.
        by rewrite fresh_map_None in Hl. }
    assert (query_map c1 σ1 = query_map fb σ) as Hq1.
    { unfold query_map. rewrite Hf1, Hf. unfold params_of at 1. simpl.
      by rewrite lookup_insert_eq. }
    destruct (IH c1 f1 σ1 Hwf1 Hf1)
      as (c & σ' & fc & Hr & Hwf' & He & Ht & Hfc & Hu & Hcl & Hts & Hq).
    exists c, σ', fc. split_and!; try done.
    + by eapply extends_trans.
    + by rewrite Hq.
Qed.

Lemma wf_Auth fb token σ σ' :
  wf σ → Auth fb token σ = Done () σ' → wf σ'.
Proof.
  intros Hwf. unfold Auth.
  unfold mbind, M_bind, get_ref.
  destruct (refs σ !! fb) as [f|] eqn:Hf; [|done].
  unfold update_map. destruct (params f) as [l|]; [|done].
  intros [= <-]. intros fb' f' l' Hf' Hl'. simpl in *.
  destruct (decide (l' = l)) as [->|Hne].
  - rewrite lookup_insert_eq. eauto.
  - rewrite lookup_insert_ne by done. eauto.
Qed.

Lemma wf_store_auth_old : wf store_auth_old.
Proof.
  apply (wf_Auth 1%positive "old" store0); [|vm_compute; reflexivity].
  apply (wf_New "example.com" None empty_store 1%positive);
    [apply wf_empty|vm_compute; reflexivity].
Qed.

End chains.

(** X23: derivations compose: the Reference reached from an allocated
    Reference by a chain of [Child] calls has the path of the root followed
    by the names, a slash before each; it has the client, the token source
    and the query entries of the root; and the derivations change nothing
    that was in the store and ask nothing of the collaborators. *)
Theorem Children_inherit names fb f σ :
  wf σ → refs σ !! fb = Some f →
  ∃ c σ',
    Children fb names σ = Done c σ'
    ∧ extends σ σ' ∧ trace σ' = trace σ
    ∧ path_of c σ'
      = foldl (λ path name, path +:+ "/" +:+ name) (path_of fb σ) names
    ∧ (client <$> refs σ' !! c) = Some (client f)
    ∧ (tokenSrc <$> refs σ' !! c) = Some (tokenSrc f)
    ∧ query_map c σ' = query_map fb σ.
Proof.
  intros Hwf Hf.
  destruct (Children_inherit_from names fb f σ Hwf Hf)
    as (c & σ' & fc & Hr & _ & He & Ht & Hfc & Hu & Hcl & Hts & Hq).
  exists c, σ'. unfold path_of. rewrite Hfc, Hf. simpl.
  by rewrite Hu, Hcl, Hts.
Qed.

Lemma Children_inherit_witness :
  ∃ c σ',
    Children 1%positive ["users"%string; "jack"%string] store_auth_old
    = Done c σ'
    ∧ path_of c σ' = "https://example.com/users/jack"%string
    ∧ query_map c σ' = {[ "auth"%string := ["old"%string] ]}.
Proof.
  run (refs store_auth_old !! 1%positive) as Hf.
  destruct (Children_inherit ["users"%string; "jack"%string] 1%positive _
              store_auth_old wf_store_auth_old Hf)
    as (c & σ' & Hc & _ & _ & Hp & _ & _ & Hq).
  exists c, σ'. split; [exact Hc|]. rewrite Hp, Hq. split; reflexivity.
Defined.

